(** * lean-bindgen: the C side of the bindings

  A shallow embedding of the C sources of the repository:
  - [c/ffi.c], the hand-written adapter [lean_simple_math_add];
  - [tests/e2e/c/handle_lib.c], the toy library with an opaque handle;
  - the two header fixtures, as the byte strings they are;
  followed by a model of the binding generator the adapter anticipates. *)

From Stdlib Require Import ZArith Lia Strings.Byte Ascii String.
From stdpp Require Import base numbers option list sorting strings pretty gmap.

(** ** C integers

  [int] is the platform int of the adapter's comment (32 bits, two's
  complement) and [uint32_t] the type of <stdint.h>.  Both are carried by
  [Z]; the casts write the wrap-around out. *)
Module Cint.
Local Open Scope Z_scope.

Definition INT_MIN : Z := - 2 ^ 31.
Definition INT_MAX : Z := 2 ^ 31 - 1.
Definition UINT32_MAX : Z := 2 ^ 32 - 1.

Definition is_int (x : Z) : Prop := INT_MIN <= x <= INT_MAX.
Definition is_uint32 (x : Z) : Prop := 0 <= x <= UINT32_MAX.

(** [(uint32_t)x] for [int x]: reduction modulo 2^32. *)
Definition uint32_of_int (x : Z) : Z := x mod 2 ^ 32.

(** [(int)a] for [uint32_t a]: the value when it fits, else the value
    minus 2^32 (C leaves the second case to the implementation; this is
    what a two's complement platform does). *)
Definition int_of_uint32 (a : Z) : Z :=
  if a <=? INT_MAX then a else a - 2 ^ 32.
End Cint.

(** ** c/ffi.c

  The adapter calls [add], which simple_math.h declares and whose body is
  not part of the sources: it is a variable of the section, free to read
  and change a state of the library ([world]).  Calls into the library are
  logged in [lib_calls], a ghost field that lets a statement count them. *)
Module FFI.
Import Cint.
Local Open Scope Z_scope.

Inductive call : Type :=
  | Call_add (a b : Z).

Section Adapter.
Variable world : Type.
(** [int add(int a, int b);] (simple_math.h, line 10) *)
Variable add : Z -> Z -> world -> Z * world.

Record lib_state : Type := LibState {
  lib_world : world;
  lib_calls : list call
}.

Definition Lib (A : Type) : Type := lib_state -> A * lib_state.

Definition lib_ret {A} (x : A) : Lib A := fun s => (x, s).

Definition lib_bind {A B} (c : Lib A) (k : A -> Lib B) : Lib B :=
  fun s => let (x, s') := c s in k x s'.

Definition call_add (x y : Z) : Lib Z :=
  fun s =>
    let (r, w) := add x y (lib_world s) in
    (r, LibState w (lib_calls s ++ [Call_add x y])).

(** [return (uint32_t)add((int)a, (int)b);] *)
Definition lean_simple_math_add (a b : Z) : Lib Z :=
  lib_bind (call_add (int_of_uint32 a) (int_of_uint32 b))
           (fun r => lib_ret (uint32_of_int r)).
End Adapter.

Arguments LibState {world} _ _.
Arguments lib_world {world} _.
Arguments lib_calls {world} _.
Arguments lean_simple_math_add {world} add a b _.

(** A library for the examples: an [add] that adds, without state. *)
Definition plain_add (x y : Z) (w : unit) : Z * unit := (x + y, w).
End FFI.

(** ** tests/e2e/c/handle_lib.c

  Memory is a finite map from block identifiers to cells.  A block is a
  char array or a [struct handle]; a freed block stays in the map as
  [Freed], so that a dangling pointer is seen.  Undefined behaviour of the
  C program is a [Fault].  The allocator may refuse a request: its answers
  to the coming requests are the [alloc_plan] of the memory, an exhausted
  plan grants every request. *)
Module HandleLib.

Inductive pointer : Type :=
  | NULL
  | Ptr (b : positive) (off : nat).

(** [struct handle { char *name; };] with [None] for the field that
    malloc left unwritten. *)
Inductive object : Type :=
  | CharArray (bytes : list byte)
  | HandleStruct (name : option pointer).

Inductive cell : Type :=
  | Live (o : object)
  | Freed.

Record memory : Type := Memory {
  heap : gmap positive cell;
  alloc_plan : list bool
}.

Inductive fault : Type :=
  | NullDereference
  | InvalidPointer
  | UninitializedRead
  | InvalidFree.

Inductive outcome (A : Type) : Type :=
  | Ret (v : A) (m : memory)
  | Fault (f : fault).
Arguments Ret {A} v m.
Arguments Fault {A} f.

Definition C (A : Type) : Type := memory -> outcome A.

Definition ret {A} (v : A) : C A := fun m => Ret v m.

Definition bind {A B} (c : C A) (k : A -> C B) : C B :=
  fun m => match c m with
           | Ret v m' => k v m'
           | Fault f => Fault f
           end.

Declare Scope c_scope.
Delimit Scope c_scope with c.
Notation "x <- c ;; k" := (bind c (fun x => k))
  (at level 100, c at next level, right associativity) : c_scope.
Notation "c ;;; k" := (bind c (fun _ => k))
  (at level 100, right associativity) : c_scope.
Local Open Scope c_scope.

(** *** <stdlib.h> and <string.h> *)

(** [malloc] of a block that will hold [o].  A refused request returns
    NULL and leaves the heap as it was. *)
Definition malloc (o : object) : C pointer :=
  fun m =>
    match alloc_plan m with
    | false :: plan => Ret NULL (Memory (heap m) plan)
    | _ =>
        let b := fresh (dom (heap m)) in
        Ret (Ptr b 0) (Memory (<[b := Live o]> (heap m)) (tail (alloc_plan m)))
    end.

(** [free]: a no-op on NULL; the pointer must be the start of a live
    block. *)
Definition free (p : pointer) : C unit :=
  fun m =>
    match p with
    | NULL => Ret tt m
    | Ptr b off =>
        match heap m !! b, off with
        | Some (Live _), O => Ret tt (Memory (<[b := Freed]> (heap m)) (alloc_plan m))
        | _, _ => Fault InvalidFree
        end
    end.

(** The bytes before the first NUL, when there is one. *)
Fixpoint until_nul (bs : list byte) : option (list byte) :=
  match bs with
  | [] => None
  | c :: rest =>
      if Byte.eqb c x00 then Some []
      else match until_nul rest with
           | Some s => Some (c :: s)
           | None => None
           end
  end.

(** The C string a pointer designates in a memory, if it designates one. *)
Definition cstring_at (m : memory) (p : pointer) : option (list byte) :=
  match p with
  | NULL => None
  | Ptr b off =>
      match heap m !! b with
      | Some (Live (CharArray bs)) => until_nul (drop off bs)
      | _ => None
      end
  end.

Definition read_cstring (p : pointer) : C (list byte) :=
  fun m =>
    match p with
    | NULL => Fault NullDereference
    | Ptr _ _ =>
        match cstring_at m p with
        | Some s => Ret s m
        | None => Fault InvalidPointer
        end
    end.

(** [strdup]: measures and reads the string, then asks malloc for
    [strlen + 1] bytes and copies the string with its terminator. *)
Definition strdup (p : pointer) : C pointer :=
  s <- read_cstring p ;;
  malloc (CharArray (s ++ [x00])).

(** *** The field [name] of a [handle *] *)

(** [h->name = v] *)
Definition set_name (h v : pointer) : C unit :=
  fun m =>
    match h with
    | NULL => Fault NullDereference
    | Ptr b off =>
        match heap m !! b, off with
        | Some (Live (HandleStruct _)), O =>
            Ret tt (Memory (<[b := Live (HandleStruct (Some v))]> (heap m)) (alloc_plan m))
        | _, _ => Fault InvalidPointer
        end
    end.

(** [h->name] *)
Definition get_name (h : pointer) : C pointer :=
  fun m =>
    match h with
    | NULL => Fault NullDereference
    | Ptr b off =>
        match heap m !! b, off with
        | Some (Live (HandleStruct (Some v))), O => Ret v m
        | Some (Live (HandleStruct None)), O => Fault UninitializedRead
        | _, _ => Fault InvalidPointer
        end
    end.

(** *** The library *)

(** [[
    handle *handle_create(const char *name) {
        handle *h = malloc(sizeof(handle));   // with a cast to the handle pointer type
        h->name = strdup(name);
        return h;
    }
    ]] *)
Definition handle_create (name : pointer) : C pointer :=
  h <- malloc (HandleStruct None) ;;
  n <- strdup name ;;
  set_name h n ;;;
  ret h.

(** [[
    const char *handle_name(handle *h) {
        return h->name;
    }
    ]] *)
Definition handle_name (h : pointer) : C pointer :=
  get_name h.

(** [[
    int handle_close(handle *h) {
        free(h->name);
        free(h);
        return 0;
    }
    ]] *)
Definition handle_close (h : pointer) : C Z :=
  n <- get_name h ;;
  free n ;;;
  free h ;;;
  ret 0%Z.

(** *** Vocabulary of the statements *)

(** The allocator grants the next [n] requests. *)
Definition allocations_succeed (n : nat) (m : memory) : Prop :=
  Forall (fun granted => granted = true) (take n (alloc_plan m)).

Definition returns {A} (o : outcome A) : Prop :=
  match o with
  | Ret _ _ => True
  | Fault _ => False
  end.

(** A handle as [handle_create] leaves it: a live struct whose name is
    NULL or the start of a live char array. *)
Definition valid_handle (m : memory) (h : pointer) : Prop :=
  exists b n,
    h = Ptr b 0 /\
    heap m !! b = Some (Live (HandleStruct (Some n))) /\
    (n = NULL \/ exists nb bs, n = Ptr nb 0 /\ heap m !! nb = Some (Live (CharArray bs))).

(** Whatever the owner of block [b] does to it afterwards. *)
Definition clobber (b : positive) (c : cell) (m : memory) : memory :=
  Memory (<[b := c]> (heap m)) (alloc_plan m).

(** A caller's buffer holding "db" and a terminator, for the examples. *)
Definition caller_buffer : list byte := [x64; x62; x00].
Definition caller_memory (plan : list bool) : memory :=
  Memory {[ 1%positive := Live (CharArray caller_buffer) ]} plan.

(** The block a pointer points into. *)
Definition block_of (p : pointer) : option positive :=
  match p with
  | NULL => None
  | Ptr b _ => Some b
  end.

(** What [handle_close] needs of its argument: the start of a live struct
    whose name has been written and is NULL or the start of another live
    block. *)
Definition closable (m : memory) (h : pointer) : Prop :=
  exists b n,
    h = Ptr b 0 /\
    heap m !! b = Some (Live (HandleStruct (Some n))) /\
    (n = NULL \/ exists nb o, n = Ptr nb 0 /\ nb <> b /\ heap m !! nb = Some (Live o)).

(** The fault of reading a string through a pointer that designates none. *)
Definition unreadable (p : pointer) : fault :=
  match p with
  | NULL => NullDereference
  | Ptr _ _ => InvalidPointer
  end.
End HandleLib.

(** ** The binding generator

  The sources hold the generator's expected output (c/ffi.c) and the
  headers it is to read, not the generator: its four components are
  modelled here from their contracts, and run on the fixtures below. *)
Module Bindgen.
Local Open Scope string_scope.

(** *** Data model *)

(** Modelled from the spec: the signedness of PrimitiveInt(width,
    signedness) in the data model of the generator, which is not in the
    sources. *)
Inductive signedness : Type := Signed | Unsigned.

(** Modelled from the spec: the type CType of the generator, which is not
    in the sources; a tagged union over PrimitiveInt(width, signedness),
    Pointer(pointee), OpaquePointer(handleName) and ConstQualified(inner). *)
Inductive CType : Type :=
  | PrimitiveInt (width : N) (sign : signedness)
  | Pointer (pointee : CType)
  | OpaquePointer (handleName : string)
  | ConstQualified (inner : CType).

(** Modelled from the spec: the type Declaration of the generator, which
    is not in the sources; a function prototype with its ordered
    (name, CType) parameters and return type, or the opaque-handle idiom
    [typedef struct X X;], which has a name and no fields. *)
Inductive Declaration : Type :=
  | FunctionDecl (name : string) (params : list (string * CType)) (ret : CType)
  | OpaqueHandleDecl (name : string).

(** Modelled from the spec: the target representations of the policy
    table of the Type Mapper: fixed-width 32-bit unsigned, read-only
    string/byte-pointer, opaque handle type. *)
Inductive TargetRep : Type :=
  | UInt32
  | ByteString
  | Handle (name : string).

(** Modelled from the spec: the conversions of the policy table: an
    explicit cast in both directions, or passthrough. *)
Inductive Conversion : Type :=
  | ExplicitCast
  | Passthrough.

(** Modelled from the spec: the type TypeMapping of the generator, a pair
    (targetRepresentation, conversionExpression) attached to a CType. *)
Record TypeMapping : Type := Mapping {
  targetRepresentation : TargetRep;
  conversion : Conversion
}.

(** Modelled from the spec: the error taxonomy of the generator
    (ParseError, UnknownTypeError, DuplicateSymbolError). *)
Inductive BindError : Type :=
  | ParseError
  | UnknownTypeError
  | DuplicateSymbolError.

(** Modelled from the spec: the place of a statement in the header text, for
    the line numbers of the diagnostics of the generator, which is not in
    the sources: line (from 1) and character offset (from 0). *)
Record Pos : Type := MkPos { pos_line : nat; pos_offset : nat }.

(** Modelled from the spec: a diagnostic of the generator, a triple (line
    number, declaration text or snippet, message); the position keeps the
    offset next to the line. *)
Record Diagnostic : Type := MkDiagnostic {
  diag_pos : Pos;
  diag_snippet : string;
  diag_error : BindError
}.

(** Modelled from the spec: the line number a diagnostic reports. *)
Definition diag_line (d : Diagnostic) : nat := pos_line (diag_pos d).

(** *** Header Parser: the lexer *)

(** Modelled from the spec: the tokens of the tokenizer of the Header
    Parser, which is not in the sources: words (identifiers, keywords,
    numbers) and one-character symbols. *)
Inductive token : Type :=
  | TWord (w : string)
  | TSym (c : ascii).

(** Modelled from the spec: tokenizer of the Header Parser, not in the
    sources: the characters of a word are letters, digits and the
    underscore. *)
Definition is_word_char (c : ascii) : bool :=
  let n := N_of_ascii c in
  ((48 <=? n) && (n <=? 57) || (65 <=? n) && (n <=? 90) ||
   (97 <=? n) && (n <=? 122) || (n =? 95))%N.

(** Modelled from the spec: tokenizer of the Header Parser, not in the
    sources: white space is the blank and the characters 9 to 13. *)
Definition is_space (c : ascii) : bool :=
  let n := N_of_ascii c in ((n =? 32) || (9 <=? n) && (n <=? 13))%N.

(** Modelled from the spec: tokenizer of the Header Parser, not in the
    sources: the line feed ends a line. *)
Definition is_newline (c : ascii) : bool := (N_of_ascii c =? 10)%N.

(** Modelled from the spec: tokenizer of the Header Parser, not in the
    sources: the character is the one the string consists of. *)
Definition is_char (c : ascii) (s : string) : bool :=
  match s with
  | String c' EmptyString => Ascii.eqb c c'
  | _ => false
  end.

(** Modelled from the spec: the states of the tokenizer of the Header
    Parser, which is not in the sources: between tokens, inside a word,
    after a slash, inside a block comment (and after a star there), inside a
    line comment or a preprocessor directive. *)
Inductive lex_mode : Type :=
  | Code
  | InWord (start : Pos) (rev_chars : list ascii)
  | AfterSlash (start : Pos)
  | BlockComment
  | BlockCommentStar
  | LineComment.

(** Modelled from the spec: the tokenizer of the Header Parser, not in the
    sources, between two characters: its state, the position of the next
    character, the tokens so far with their positions. *)
Record lexer : Type := Lexer {
  lx_mode : lex_mode;
  lx_pos : Pos;
  lx_out : list (Pos * token)
}.

(** Modelled from the spec: tokenizer of the Header Parser, not in the
    sources: the word whose characters were read, last first. *)
Definition word_of (rev_chars : list ascii) : token :=
  TWord (string_of_list_ascii (rev rev_chars)).

(** Modelled from the spec: a step of the tokenizer of the Header Parser,
    which is not in the sources, on a character met between tokens:
    a word starts, a comment may start, a preprocessor directive is
    skipped to the end of its line like a line comment, white space is
    dropped, anything else is a one-character symbol. *)
Definition lex_code (p : Pos) (c : ascii) : lex_mode * list (Pos * token) :=
  if is_word_char c then (InWord p [c], [])
  else if is_char c "/" then (AfterSlash p, [])
  else if is_char c "#" then (LineComment, [])
  else if is_space c then (Code, [])
  else (Code, [(p, TSym c)]).

(** Modelled from the spec: the tokenizer of the Header Parser, which is
    not in the sources, as a machine reading one character: it skips
    comments and preprocessor directives and tracks line numbers. *)
Definition lex_step (lx : lexer) (c : ascii) : lexer :=
  let p := lx_pos lx in
  let '(mode, emitted) :=
    match lx_mode lx with
    | Code => lex_code p c
    | InWord start acc =>
        if is_word_char c then (InWord start (c :: acc), [])
        else let '(mode, toks) := lex_code p c in
             (mode, (start, word_of acc) :: toks)
    | AfterSlash start =>
        if is_char c "*" then (BlockComment, [])
        else if is_char c "/" then (LineComment, [])
        else let '(mode, toks) := lex_code p c in
             (mode, (start, TSym "/"%char) :: toks)
    | BlockComment =>
        if is_char c "*" then (BlockCommentStar, []) else (BlockComment, [])
    | BlockCommentStar =>
        if is_char c "/" then (Code, [])
        else if is_char c "*" then (BlockCommentStar, [])
        else (BlockComment, [])
    | LineComment =>
        if is_newline c then (Code, []) else (LineComment, [])
    end in
  Lexer mode
        (MkPos (if is_newline c then S (pos_line p) else pos_line p) (S (pos_offset p)))
        (lx_out lx ++ emitted).

(** Modelled from the spec: tokenizer of the Header Parser, not in the
    sources, at the end of the text: a word or a slash that was being read
    is a last token. *)
Definition lex_finish (lx : lexer) : list (Pos * token) :=
  match lx_mode lx with
  | InWord start acc => lx_out lx ++ [(start, word_of acc)]
  | AfterSlash start => lx_out lx ++ [(start, TSym "/"%char)]
  | _ => lx_out lx
  end.

(** Modelled from the spec: tokenizer of the Header Parser, not in the
    sources, before the first character: line 1, offset 0, no token. *)
Definition lex_start : lexer := Lexer Code (MkPos 1 0) [].

(** Modelled from the spec: the tokenizer of the Header Parser, which is not
    in the sources: from header text to the tokens with their positions,
    comments and preprocessor directives skipped. *)
Definition lex (text : string) : list (Pos * token) :=
  lex_finish (fold_left lex_step (list_ascii_of_string text) lex_start).

(** *** Header Parser: statements *)

(** Modelled from the spec: a top-level statement of the Header Parser,
    which is not in the sources: its tokens up to and including the closing
    semicolon, at the position of its first token. *)
Record Statement : Type := MkStatement {
  stmt_pos : Pos;
  stmt_tokens : list token
}.

(** Modelled from the spec: Header Parser, not in the sources: the token is
    the given one-character symbol. *)
Definition is_sym (c : string) (t : token) : bool :=
  match t with
  | TSym a => is_char a c
  | TWord _ => false
  end.

(** Modelled from the spec: statement splitter of the Header Parser, not in
    the sources: the tokens gathered form a statement, if there are any. *)
Definition close_statement (cur : list (Pos * token)) : list Statement :=
  match cur with
  | [] => []
  | (p, _) :: _ => [MkStatement p (map snd cur)]
  end.

(** Modelled from the spec: the statement splitter of the Header Parser,
    which is not in the sources: a statement ends at a semicolon outside
    braces; tokens left after the last semicolon form a last statement. *)
Fixpoint split_statements (depth : nat) (cur : list (Pos * token))
    (toks : list (Pos * token)) : list Statement :=
  match toks with
  | [] => close_statement cur
  | (p, t) :: rest =>
      if is_sym ";" t && Nat.eqb depth 0
      then close_statement (cur ++ [(p, t)]) ++ split_statements 0 [] rest
      else if is_sym "{" t then split_statements (S depth) (cur ++ [(p, t)]) rest
      else if is_sym "}" t then split_statements (pred depth) (cur ++ [(p, t)]) rest
      else split_statements depth (cur ++ [(p, t)]) rest
  end.

(** Modelled from the spec: Header Parser, not in the sources: the text of a
    token, for snippets. *)
Definition token_text (t : token) : string :=
  match t with
  | TWord w => w
  | TSym c => String c EmptyString
  end.

(** Modelled from the spec: the best-effort snippet of a diagnostic of the
    generator, not in the sources: the tokens of the statement, spaced. *)
Definition snippet (toks : list token) : string :=
  String.concat " " (map token_text toks).

(** *** Header Parser: declarations *)

(** Modelled from the spec: Header Parser, not in the sources: the words
    that cannot name a function, a parameter or a handle: the C keywords of
    declarations, and [uint32_t], the type the adapters are written with. *)
Definition reserved : list string :=
  ["typedef"; "struct"; "union"; "enum"; "const"; "volatile"; "unsigned"; "signed";
   "char"; "short"; "int"; "long"; "float"; "double"; "void"; "extern"; "static";
   "inline"; "return"; "sizeof"; "uint32_t"].

(** Modelled from the spec: Header Parser, not in the sources: an identifier
    starts with a letter or an underscore. *)
Definition is_letter (c : ascii) : bool :=
  let n := N_of_ascii c in
  ((65 <=? n) && (n <=? 90) || (97 <=? n) && (n <=? 122) || (n =? 95))%N.

(** Modelled from the spec: Header Parser, not in the sources: a name is an
    identifier that is not a keyword. *)
Definition is_name (w : string) : bool :=
  match w with
  | EmptyString => false
  | String c _ => is_letter c && negb (existsb (String.eqb w) reserved)
  end.

(** Modelled from the spec: Header Parser, not in the sources: the widths of
    the integer types, [char] 8, [short] 16, the platform [int] 32, [long]
    64. *)
Definition int_width (w : string) : option N :=
  if String.eqb w "char" then Some 8%N
  else if String.eqb w "short" then Some 16%N
  else if String.eqb w "int" then Some 32%N
  else if String.eqb w "long" then Some 64%N
  else None.

(** Modelled from the spec: Header Parser, not in the sources: what a type
    starts with, an integer type or a struct tag. *)
Inductive base_type : Type :=
  | BaseInt (width : N) (sign : signedness)
  | BaseTag (tag : string).

(** Modelled from the spec: Header Parser, not in the sources: the integer
    type after [unsigned] or [signed], [int] when none is named. *)
Definition parse_sign (s : signedness) (rest : list token) : base_type * list token :=
  match rest with
  | TWord w :: rest' =>
      match int_width w with
      | Some n => (BaseInt n s, rest')
      | None => (BaseInt 32 s, rest)
      end
  | _ => (BaseInt 32 s, rest)
  end.

(** Modelled from the spec: Header Parser, not in the sources: the start of
    a type, an integer type with its sign, [struct TAG], or a tag. *)
Definition parse_base (toks : list token) : option (base_type * list token) :=
  match toks with
  | TWord w :: rest =>
      if String.eqb w "unsigned" then Some (parse_sign Unsigned rest)
      else if String.eqb w "signed" then Some (parse_sign Signed rest)
      else if String.eqb w "struct" then
        match rest with
        | TWord tag :: rest' => if is_name tag then Some (BaseTag tag, rest') else None
        | _ => None
        end
      else match int_width w with
           | Some n => Some (BaseInt n Signed, rest)
           | None => if is_name w then Some (BaseTag w, rest) else None
           end
  | _ => None
  end.

(** Modelled from the spec: Header Parser, not in the sources: each star
    after a type makes a Pointer. *)
Fixpoint parse_stars (t : CType) (toks : list token) : CType * list token :=
  match toks with
  | tok :: rest => if is_sym "*" tok then parse_stars (Pointer t) rest else (t, toks)
  | [] => (t, toks)
  end.

(** Modelled from the spec: Header Parser, not in the sources: a type read
    after [const] is ConstQualified. *)
Definition qualify (is_const : bool) (r : CType * list token) : CType * list token :=
  (if is_const then ConstQualified (fst r) else fst r, snd r).

(** Modelled from the spec: the reading of a C type by the Header Parser,
    which is not in the sources.  A leading [const] wraps the whole type in
    ConstQualified, so that [const char *] is
    ConstQualified(Pointer(PrimitiveInt(8, _))); a pointer to a struct tag
    is OpaquePointer(tag); a struct by value has no CType. *)
Definition parse_type (toks : list token) : option (CType * list token) :=
  let is_const := match toks with
                  | TWord w :: _ => String.eqb w "const"
                  | _ => false
                  end in
  match parse_base (if is_const then tail toks else toks) with
  | Some (BaseInt w s, rest) => Some (qualify is_const (parse_stars (PrimitiveInt w s) rest))
  | Some (BaseTag tag, star :: rest) =>
      if is_sym "*" star
      then Some (qualify is_const (parse_stars (OpaquePointer tag) rest))
      else None
  | _ => None
  end.

(** Modelled from the spec: Header Parser, not in the sources: the
    parameters of a prototype are separated by commas. *)
Fixpoint split_commas (cur : list token) (toks : list token) : list (list token) :=
  match toks with
  | [] => [cur]
  | t :: rest =>
      if is_sym "," t then cur :: split_commas [] rest
      else split_commas (cur ++ [t]) rest
  end.

(** Modelled from the spec: Header Parser, not in the sources: a parameter
    [ParamType [name]], with its name when it is written with one. *)
Definition parse_param (toks : list token) : option (option string * CType) :=
  match parse_type toks with
  | Some (t, []) => Some (None, t)
  | Some (t, [TWord x]) => if is_name x then Some (Some x, t) else None
  | _ => None
  end.

(** Modelled from the spec: Header Parser, not in the sources: the ordered
    parameter list, each parameter parsed in turn. *)
Fixpoint parse_param_list (groups : list (list token))
    : option (list (option string * CType)) :=
  match groups with
  | [] => Some []
  | g :: rest =>
      match parse_param g, parse_param_list rest with
      | Some p, Some ps => Some (p :: ps)
      | _, _ => None
      end
  end.

(** Modelled from the spec: Header Parser, not in the sources: a name for a
    parameter written without one: the candidate, with underscores added
    for as long as a written name of the declaration is the same. *)
Fixpoint fresh_name (used : list string) (fuel : nat) (candidate : string) : string :=
  match fuel with
  | O => candidate
  | S fuel' =>
      if existsb (String.eqb candidate) used
      then fresh_name used fuel' (candidate ++ "_")
      else candidate
  end.

(** Modelled from the spec: Header Parser, not in the sources: the data model
    gives every parameter a name; one written without a name is named
    after its position, [arg0], [arg1], ..., apart from the written names. *)
Fixpoint name_params (used : list string) (index : nat)
    (ps : list (option string * CType)) : list (string * CType) :=
  match ps with
  | [] => []
  | (Some x, t) :: rest => (x, t) :: name_params used (S index) rest
  | (None, t) :: rest =>
      (fresh_name used (length used) ("arg" ++ pretty index), t) ::
      name_params used (S index) rest
  end.

(** Modelled from the spec: Header Parser, not in the sources: the
    parameters between the parentheses, none for [()]. *)
Definition parse_params (toks : list token) : option (list (string * CType)) :=
  match toks with
  | [] => Some []
  | _ =>
      match parse_param_list (split_commas [] toks) with
      | Some ps => Some (name_params (omap fst ps) 0 ps)
      | None => None
      end
  end.

(** Modelled from the spec: Header Parser, not in the sources: function
    prototypes of the shape [RetType name(ParamType [name], ...);]. *)
Definition parse_function (toks : list token) : option Declaration :=
  match parse_type toks with
  | Some (ret, TWord f :: lp :: inside) =>
      match rev inside with
      | semi :: rp :: rev_params =>
          if is_name f && is_sym "(" lp && is_sym ")" rp && is_sym ";" semi
          then match parse_params (rev rev_params) with
               | Some ps => Some (FunctionDecl f ps ret)
               | None => None
               end
          else None
      | _ => None
      end
  | _ => None
  end.

(** Modelled from the spec: Header Parser, not in the sources: the
    opaque-handle idiom [typedef struct TAG TAG;]. *)
Definition parse_opaque_handle (toks : list token) : option Declaration :=
  match toks with
  | [TWord t; TWord s; TWord tag; TWord tag'; semi] =>
      if String.eqb t "typedef" && String.eqb s "struct" && String.eqb tag tag' &&
         is_name tag && is_sym ";" semi
      then Some (OpaqueHandleDecl tag)
      else None
  | _ => None
  end.

(** Modelled from the spec: the recognizer of the Header Parser, which is
    not in the sources: the opaque-handle idiom [typedef struct TAG TAG;]
    and function prototypes [RetType name(ParamType [name], ...);];
    anything else is unparseable. *)
Definition parse_statement (toks : list token) : option Declaration :=
  match parse_opaque_handle toks with
  | Some d => Some d
  | None => parse_function toks
  end.

(** Modelled from the spec: what the Header Parser, which is not in the
    sources, makes of one statement: a Declaration, or nothing when the
    statement is malformed, with the line and snippet a diagnostic needs. *)
Record Parsed : Type := MkParsed {
  parsed_pos : Pos;
  parsed_snippet : string;
  parsed_decl : option Declaration
}.

(** Modelled from the spec: Header Parser, not in the sources, on one
    statement. *)
Definition parse_one (st : Statement) : Parsed :=
  MkParsed (stmt_pos st) (snippet (stmt_tokens st)) (parse_statement (stmt_tokens st)).

(** Modelled from the spec: the Header Parser, which is not in the
    sources: from header text to the statements in source order, each
    parsed to a Declaration or left as malformed. *)
Definition parse_header (text : string) : list Parsed :=
  map parse_one (split_statements 0 [] (lex text)).

(** Modelled from the spec: the first sequence of the contract of the Header
    Parser, not in the sources: the ordered sequence of Declaration values.
    *)
Definition declarations (ps : list Parsed) : list (Pos * Declaration) :=
  omap (fun p => match parsed_decl p with
                 | Some d => Some (parsed_pos p, d)
                 | None => None
                 end) ps.

(** Modelled from the spec: the second sequence of the contract of the
    Header Parser, not in the sources: one parse diagnostic per malformed
    statement, with its line. *)
Definition parse_diagnostics (ps : list Parsed) : list Diagnostic :=
  omap (fun p => match parsed_decl p with
                 | Some _ => None
                 | None => Some (MkDiagnostic (parsed_pos p) (parsed_snippet p) ParseError)
                 end) ps.

(** *** Type Mapper *)

(** Modelled from the spec: the Type Mapper of the generator, which is
    not in the sources, with the policy table of its contract: [int] and
    [unsigned int] go to the fixed-width 32-bit unsigned with an explicit
    cast in both directions, [const char *] to the read-only
    string/byte-pointer and an opaque pointer to the opaque handle type,
    both passed through; any other shape is a mapping error.  An [int]
    return used as a status falls under the first row: its value is cast,
    as in the scenario of [int add(int a, int b);], and the caller
    interprets it. *)
Definition map_type (t : CType) : option TypeMapping :=
  match t with
  | PrimitiveInt w _ => if (w =? 32)%N then Some (Mapping UInt32 ExplicitCast) else None
  | ConstQualified (Pointer (PrimitiveInt w _)) =>
      if (w =? 8)%N then Some (Mapping ByteString Passthrough) else None
  | OpaquePointer h => Some (Mapping (Handle h) Passthrough)
  | _ => None
  end.

(** Modelled from the spec: the result of a component of the generator, not
    in the sources: a value or an error of the taxonomy. *)
Inductive Result (A : Type) : Type :=
  | Ok (a : A)
  | Err (e : BindError).
Arguments Ok {A} a.
Arguments Err {A} e.

(** Modelled from the spec: the use of a type in a declaration: its
    mapping, with the hard error ("unknown type") for an opaque handle
    that is not registered when it is used. *)
Definition map_use (registry : gset string) (t : CType) : Result TypeMapping :=
  match map_type t with
  | None => Err UnknownTypeError
  | Some m =>
      match targetRepresentation m with
      | Handle h => if decide (h ∈ registry) then Ok m else Err UnknownTypeError
      | _ => Ok m
      end
  end.

(** Modelled from the spec: a function declaration whose parameter and
    return CTypes the Mapper has enriched with their TypeMapping. *)
Record MappedDecl : Type := MkMapped {
  mapped_name : string;
  mapped_params : list (string * CType * TypeMapping);
  mapped_ret : CType * TypeMapping
}.

(** Modelled from the spec: Type Mapper of the generator, not in the
    sources, over the parameters of a declaration; the first error is the
    declaration's. *)
Fixpoint map_params (registry : gset string) (ps : list (string * CType))
    : Result (list (string * CType * TypeMapping)) :=
  match ps with
  | [] => Ok []
  | (x, t) :: rest =>
      match map_use registry t, map_params registry rest with
      | Ok m, Ok ms => Ok ((x, t, m) :: ms)
      | Err e, _ => Err e
      | _, Err e => Err e
      end
  end.

(** Modelled from the spec: Type Mapper of the generator, not in the
    sources, over a function declaration: each parameter and the return
    CType, enriched with their TypeMapping. *)
Definition map_function (registry : gset string) (f : string)
    (ps : list (string * CType)) (r : CType) : Result MappedDecl :=
  match map_params registry ps, map_use registry r with
  | Ok ms, Ok m => Ok (MkMapped f ms (r, m))
  | Err e, _ => Err e
  | _, Err e => Err e
  end.

(** *** Binding Emitter *)

(** Modelled from the spec: the C expressions the Binding Emitter, which is
    not in the sources, writes adapter bodies in: variables, casts, calls,
    and the dereference and field access that opaque handles must never
    meet. *)
#[warning="-register-all"]
Inductive CExpr : Type :=
  | EVar (x : string)
  | ECast (type_text : string) (e : CExpr)
  | ECall (f : string) (args : list CExpr)
  | EDeref (e : CExpr)
  | EArrow (e : CExpr) (field : string).

(** Modelled from the spec: the adapter function the Binding Emitter
    emits: a new symbol with the target representation's signature whose
    body returns one expression. *)
Record Adapter : Type := MkAdapter {
  adapter_symbol : string;
  adapter_params : list (string * TargetRep);
  adapter_ret : TargetRep;
  adapter_body : CExpr
}.

(** Modelled from the spec: Binding Emitter, not in the sources: the C text
    of a CType, for the casts to the types of the original function. *)
Fixpoint ctype_text (t : CType) : string :=
  match t with
  | PrimitiveInt w s =>
      (match s with Signed => "" | Unsigned => "unsigned " end) ++
      (if (w =? 8)%N then "char" else if (w =? 16)%N then "short"
       else if (w =? 64)%N then "long" else "int")
  | Pointer t' => ctype_text t' ++ " *"
  | OpaquePointer h => h ++ " *"
  | ConstQualified t' => "const " ++ ctype_text t'
  end.

(** Modelled from the spec: Binding Emitter, not in the sources: the C text
    of a target representation. *)
Definition target_text (r : TargetRep) : string :=
  match r with
  | UInt32 => "uint32_t"
  | ByteString => "const char *"
  | Handle h => h ++ " *"
  end.

(** Modelled from the spec: Binding Emitter, not in the sources: a
    declarator, the type and then the name, a pointer's star against the
    name as in the headers. *)
Definition declarator (r : TargetRep) (x : string) : string :=
  match r with
  | UInt32 => "uint32_t " ++ x
  | ByteString => "const char *" ++ x
  | Handle h => h ++ " *" ++ x
  end.

(** Modelled from the spec: Binding Emitter, not in the sources: the
    conversion of an argument via its TypeMapping, an explicit cast to the C
    type of the parameter or the argument itself. *)
Definition convert_argument (t : CType) (m : TypeMapping) (e : CExpr) : CExpr :=
  match conversion m with
  | ExplicitCast => ECast (ctype_text t) e
  | Passthrough => e
  end.

(** Modelled from the spec: Binding Emitter, not in the sources: the
    conversion of the result via its TypeMapping, an explicit cast to the
    target representation or the result itself. *)
Definition convert_result (m : TypeMapping) (e : CExpr) : CExpr :=
  match conversion m with
  | ExplicitCast => ECast (target_text (targetRepresentation m)) e
  | Passthrough => e
  end.

(** Modelled from the spec: the adapter symbol naming of the emitter,
    [<prefix>_<original_name>]. *)
Definition adapter_name (prefix f : string) : string := prefix ++ "_" ++ f.

(** Modelled from the spec: Binding Emitter, not in the sources: the
    arguments of the call of the original symbol, each parameter of the
    adapter converted. *)
Definition call_arguments (ms : list (string * CType * TypeMapping)) : list CExpr :=
  map (fun p => convert_argument (snd (fst p)) (snd p) (EVar (fst (fst p)))) ms.

(** Modelled from the spec: the Binding Emitter of the generator, which
    is not in the sources: the adapter converts each argument via its
    TypeMapping, invokes the original symbol by its original name,
    converts the result via its TypeMapping and returns it. *)
Definition emit_adapter (prefix : string) (d : MappedDecl) : Adapter :=
  MkAdapter
    (adapter_name prefix (mapped_name d))
    (map (fun p => (fst (fst p), targetRepresentation (snd p))) (mapped_params d))
    (targetRepresentation (snd (mapped_ret d)))
    (convert_result (snd (mapped_ret d))
       (ECall (mapped_name d) (call_arguments (mapped_params d)))).

(** Modelled from the spec: Binding Emitter, not in the sources: the source
    text of an expression. *)
Fixpoint render_expr (e : CExpr) : string :=
  match e with
  | EVar x => x
  | ECast ty e' => "(" ++ ty ++ ")" ++ render_expr e'
  | ECall f args => f ++ "(" ++ String.concat ", " (map render_expr args) ++ ")"
  | EDeref e' => "*" ++ render_expr e'
  | EArrow e' field => render_expr e' ++ "->" ++ field
  end.

(** Modelled from the spec: Binding Emitter, not in the sources: the line
    feed that ends the lines of the generated text. *)
Definition newline : string := String "010"%char EmptyString.

(** Modelled from the spec: Binding Emitter, not in the sources: the source
    text of an adapter, laid out as c/ffi.c lays its own. *)
Definition render_adapter (a : Adapter) : string :=
  declarator (adapter_ret a) (adapter_symbol a) ++ "(" ++
  String.concat ", " (map (fun p => declarator (snd p) (fst p)) (adapter_params a)) ++
  ") {" ++ newline ++
  "    return " ++ render_expr (adapter_body a) ++ ";" ++ newline ++
  "}" ++ newline.

(** No dereference and no field access anywhere in an expression. *)
Fixpoint no_deref (e : CExpr) : bool :=
  match e with
  | EVar _ => true
  | ECast _ e' => no_deref e'
  | ECall _ args => forallb no_deref args
  | EDeref _ => false
  | EArrow _ _ => false
  end.

(** Modelled from the spec: the success/failure status of a BindingUnit of
    the generator, not in the sources. *)
Inductive Status : Type :=
  | Emitted
  | Failed (e : BindError).

(** Modelled from the spec: the type BindingUnit of the generator, the
    emission result for one Declaration: generated source text, the
    original symbol it binds to, and a success/failure status. *)
Record BindingUnit : Type := MkUnit {
  unit_text : string;
  unit_symbol : string;
  unit_status : Status
}.

(** Modelled from the spec: the run-scoped state of the Driver, passed
    explicitly: the table of known opaque handle names and the adapter
    symbols already emitted for the header. *)
Record Context : Type := MkContext {
  registry : gset string;
  symbols : gset string
}.

(** Modelled from the spec: Binding Emitter, not in the sources: an
    identifier of C that is no reserved word, every character a letter, a
    digit or an underscore. *)
Definition is_identifier (w : string) : bool :=
  is_name w && forallb is_word_char (list_ascii_of_string w).

(** Modelled from the spec: Binding Emitter, not in the sources: no name
    occurs twice. *)
Fixpoint distinct (names : list string) : bool :=
  match names with
  | [] => true
  | x :: rest => negb (existsb (String.eqb x) rest) && distinct rest
  end.

(** Modelled from the spec: Binding Emitter, not in the sources: the names
    an adapter can be written with, so that the emitted code is correct C:
    the function and the parameters are named by identifiers, no two
    parameters alike and none like the function it would hide. *)
Definition well_named (f : string) (ps : list (string * CType)) : bool :=
  is_identifier f && forallb (fun p => is_identifier (fst p)) ps &&
  distinct (f :: map fst ps).

(** Modelled from the spec: Mapper and Emitter of the generator, not in the
    sources, on a function declaration in a context: its adapter, or the
    error fatal to that declaration: an unknown type; names the adapter
    cannot be written with (such a declaration is malformed); or an adapter
    name that an earlier declaration emitted. *)
Definition build_adapter (prefix : string) (ctx : Context) (f : string)
    (ps : list (string * CType)) (r : CType) : Result Adapter :=
  match map_function (registry ctx) f ps r with
  | Err e => Err e
  | Ok md =>
      if negb (well_named f ps) then Err ParseError
      else if decide (adapter_name prefix f ∈ symbols ctx) then Err DuplicateSymbolError
      else Ok (emit_adapter prefix md)
  end.

(** Modelled from the spec: emission for one Declaration.  An
    opaque-handle declaration emits no adapter body; a function
    declaration emits its adapter, unless a type is unknown or the adapter
    name is taken by an earlier declaration. *)
Definition emit (prefix : string) (ctx : Context) (d : Declaration) : BindingUnit :=
  match d with
  | OpaqueHandleDecl h => MkUnit "" h Emitted
  | FunctionDecl f ps r =>
      match build_adapter prefix ctx f ps r with
      | Ok a => MkUnit (render_adapter a) f Emitted
      | Err e => MkUnit "" f (Failed e)
      end
  end.

(** Modelled from the spec: Driver of the generator, not in the sources:
    what a Declaration that succeeded leaves in the context, a handle its
    registration (the table is append-only), a function its adapter's
    symbol. *)
Definition register (prefix : string) (d : Declaration) (ctx : Context) : Context :=
  match d with
  | OpaqueHandleDecl h => MkContext ({[ h ]} ∪ registry ctx) (symbols ctx)
  | FunctionDecl f _ _ => MkContext (registry ctx) ({[ adapter_name prefix f ]} ∪ symbols ctx)
  end.

(** *** Driver *)

(** Modelled from the spec: Driver of the generator, not in the sources:
    what it collects per declaration, one BindingUnit or one diagnostic. *)
Inductive Outcome : Type :=
  | Bound (u : BindingUnit)
  | Rejected (d : Diagnostic).

(** Modelled from the spec: the Driver on one statement, which is not in
    the sources: Parser, Mapper and Emitter in turn; a failure is a
    diagnostic and leaves the context as it was, a success yields the
    BindingUnit and registers the declaration. *)
Definition process (prefix : string) (ctx : Context) (p : Parsed) : Outcome * Context :=
  match parsed_decl p with
  | None => (Rejected (MkDiagnostic (parsed_pos p) (parsed_snippet p) ParseError), ctx)
  | Some d =>
      let u := emit prefix ctx d in
      match unit_status u with
      | Emitted => (Bound u, register prefix d ctx)
      | Failed e => (Rejected (MkDiagnostic (parsed_pos p) (parsed_snippet p) e), ctx)
      end
  end.

(** Modelled from the spec: Driver of the generator, not in the sources: the
    statements processed one after the other in a given order, each with its
    index in the source; the results keep the index. *)
Fixpoint run_items (prefix : string) (ctx : Context) (items : list (nat * Parsed))
    : list (nat * Outcome) * Context :=
  match items with
  | [] => ([], ctx)
  | (i, p) :: rest =>
      let '(o, ctx1) := process prefix ctx p in
      let '(os, ctx2) := run_items prefix ctx1 rest in
      ((i, o) :: os, ctx2)
  end.

(** Modelled from the spec: collection step of the Driver, not in the
    sources: the order of the source indices. *)
Definition index_le {A} (x y : nat * A) : Prop := fst x <= fst y.

(** Modelled from the spec: collection step of the Driver, not in the
    sources: the order of the source indices is decidable. *)
Global Instance index_le_dec {A} (x y : nat * A) : Decision (index_le x y).
Proof. unfold index_le. apply _. Defined.

(** Modelled from the spec: the collection step of the Driver: results
    are collected and re-sorted into source order before being written
    out. *)
Definition collect (outs : list (nat * Outcome)) : list Outcome :=
  map snd (merge_sort index_le outs).

(** Modelled from the spec: the exit status of a run of the generator, not
    in the sources: success or failure. *)
Inductive ExitStatus : Type := Success | Failure.

(** Modelled from the spec: Driver of the generator, not in the sources: the
    declaration-level error of a result. *)
Definition is_rejected (o : Outcome) : bool :=
  match o with
  | Bound _ => false
  | Rejected _ => true
  end.

(** Modelled from the spec: Driver of the generator, not in the sources: the
    BindingUnit of a result. *)
Definition bound_unit (o : Outcome) : option BindingUnit :=
  match o with
  | Bound u => Some u
  | Rejected _ => None
  end.

(** Modelled from the spec: Driver of the generator, not in the sources: the
    diagnostic of a result. *)
Definition rejection (o : Outcome) : option Diagnostic :=
  match o with
  | Bound _ => None
  | Rejected d => Some d
  end.

(** Modelled from the spec: what a run of the generator returns: the
    BindingUnits, the generated C source (the adapters, one after the
    other), the diagnostics report, the exit status (did any
    declaration-level error occur) and the registrations accumulated. *)
Record Report : Type := MkReport {
  units : list BindingUnit;
  generated : string;
  diagnostics : list Diagnostic;
  exit_status : ExitStatus;
  registrations : gset string
}.

(** Modelled from the spec: Driver of the generator, not in the sources: the
    full result set from the collected results; the generated source is the
    unit texts one after the other, the exit status is failure when any
    declaration-level error occurred. *)
Definition report (outs : list Outcome) (ctx : Context) : Report :=
  MkReport
    (omap bound_unit outs)
    (String.concat "" (map unit_text (omap bound_unit outs)))
    (omap rejection outs)
    (if existsb is_rejected outs then Failure else Success)
    (registry ctx).

(** Modelled from the spec: Driver of the generator, not in the sources: a
    run that processes the statements in a given order, from the
    registrations accumulated so far and no adapter symbol, then collects
    the results. *)
Definition run_in_order (prefix : string) (known : gset string)
    (order : list (nat * Parsed)) : Report :=
  let '(outs, ctx) := run_items prefix (MkContext known ∅) order in
  report (collect outs) ctx.

(** Modelled from the spec: Driver of the generator, not in the sources: the
    statements numbered in source order. *)
Definition source_order (ps : list Parsed) : list (nat * Parsed) :=
  imap pair ps.

(** Modelled from the spec: Driver of the generator, not in the sources, on
    the statements of a header, in source order. *)
Definition run_statements (prefix : string) (known : gset string)
    (ps : list Parsed) : Report :=
  run_in_order prefix known (source_order ps).

(** Modelled from the spec: the Driver of the generator, which is not in
    the sources: given header text and the registrations accumulated so
    far, it runs Parser, Mapper and Emitter per declaration, in source
    order, and returns the full result set. *)
Definition generate (prefix : string) (known : gset string) (text : string) : Report :=
  run_statements prefix known (parse_header text).

(** *** Processing orders *)

(** Modelled from the spec: independence of declarations (the generator is
    not in the sources): the type names the handle. *)
Fixpoint mentions (h : string) (t : CType) : bool :=
  match t with
  | PrimitiveInt _ _ => false
  | Pointer t' => mentions h t'
  | OpaquePointer h' => String.eqb h h'
  | ConstQualified t' => mentions h t'
  end.

(** Modelled from the spec: independence of declarations (the generator is
    not in the sources): a parameter or the return type of a function names
    the handle. *)
Definition uses_handle (h : string) (ps : list (string * CType)) (r : CType) : bool :=
  existsb (fun p => mentions h (snd p)) ps || mentions h r.

(** Modelled from the spec: independence of declarations (the generator is
    not in the sources): two declarations are independent unless one
    registers a handle the other mentions, or both are functions of the same
    name. *)
Definition independent_decl (d1 d2 : Declaration) : bool :=
  match d1, d2 with
  | FunctionDecl f _ _, FunctionDecl g _ _ => negb (String.eqb f g)
  | OpaqueHandleDecl h, FunctionDecl _ ps r => negb (uses_handle h ps r)
  | FunctionDecl _ ps r, OpaqueHandleDecl h => negb (uses_handle h ps r)
  | OpaqueHandleDecl _, OpaqueHandleDecl _ => true
  end.

(** Modelled from the spec: independence of statements (the generator is not
    in the sources): a malformed statement is independent of every other. *)
Definition independent (p q : Parsed) : bool :=
  match parsed_decl p, parsed_decl q with
  | Some d1, Some d2 => independent_decl d1 d2
  | _, _ => true
  end.

(** Modelled from the spec: the internal processing orders of a run:
    the source order, and any order reached from it by exchanging two
    neighbours that are independent of each other. *)
Inductive Reordering (source : list (nat * Parsed)) : list (nat * Parsed) -> Prop :=
  | reorder_source : Reordering source source
  | reorder_swap l1 a b l2 :
      Reordering source (l1 ++ a :: b :: l2) ->
      independent (snd a) (snd b) = true ->
      Reordering source (l1 ++ b :: a :: l2).

(** Modelled from the spec: a run of the generator, which is not in the
    sources, on a header, whatever order it processes the independent
    declarations in. *)
Definition Generates (prefix : string) (known : gset string) (text : string)
    (out : Report) : Prop :=
  exists order,
    Reordering (source_order (parse_header text)) order /\
    out = run_in_order prefix known order.

(** *** Vocabulary of the statements *)

(** The results of the statements, processed in source order, and the
    context they leave. *)
Fixpoint outcomes (prefix : string) (ctx : Context) (ps : list Parsed) : list Outcome :=
  match ps with
  | [] => []
  | p :: rest => fst (process prefix ctx p) :: outcomes prefix (snd (process prefix ctx p)) rest
  end.

Fixpoint context_after (prefix : string) (ctx : Context) (ps : list Parsed) : Context :=
  match ps with
  | [] => ctx
  | p :: rest => context_after prefix (snd (process prefix ctx p)) rest
  end.

(** A declaration no context makes translatable: a function one of whose
    types is outside the policy table. *)
Definition untranslatable (d : Declaration) : bool :=
  match d with
  | FunctionDecl _ ps r =>
      existsb (fun p => negb (bool_decide (is_Some (map_type (snd p))))) ps ||
      negb (bool_decide (is_Some (map_type r)))
  | OpaqueHandleDecl _ => false
  end.

(** A statement that is malformed or untranslatable. *)
Definition failing (p : Parsed) : bool :=
  match parsed_decl p with
  | None => true
  | Some d => untranslatable d
  end.

Definition typings (d : MappedDecl) : list (CType * TypeMapping) :=
  mapped_ret d :: map (fun p => (snd (fst p), snd p)) (mapped_params d).

(** Source order of positions: strictly later in the text, on no earlier
    line. *)
Definition pos_before (p q : Pos) : Prop :=
  pos_offset p < pos_offset q /\ pos_line p <= pos_line q.

(** Where the token the lexer is in the middle of began. *)
Definition pending (m : lex_mode) : option Pos :=
  match m with
  | InWord start _ => Some start
  | AfterSlash start => Some start
  | _ => None
  end.

(** What lies behind the lexer: its tokens are in source order, before
    the pending token if there is one, which began before the current
    position. *)
Definition lexer_ordered (lx : lexer) : Prop :=
  StronglySorted pos_before (map fst (lx_out lx)) /\
  match pending (lx_mode lx) with
  | Some start =>
      Forall (fun t => pos_before (fst t) start) (lx_out lx) /\
      pos_before start (lx_pos lx)
  | None => Forall (fun t => pos_before (fst t) (lx_pos lx)) (lx_out lx)
  end.

Definition decl_name (d : Declaration) : string :=
  match d with
  | FunctionDecl f _ _ => f
  | OpaqueHandleDecl h => h
  end.

(** *** Vocabulary of header texts put one after the other *)

(** The tokenizer after the characters of a text. *)
Definition lex_state (text : string) : lexer :=
  fold_left lex_step (list_ascii_of_string text) lex_start.

(** Where the statement splitter stands after some tokens: how deep in
    braces, and the tokens of the statement it is in the middle of. *)
Fixpoint split_state (depth : nat) (cur : list (Pos * token))
    (toks : list (Pos * token)) : nat * list (Pos * token) :=
  match toks with
  | [] => (depth, cur)
  | (p, t) :: rest =>
      if is_sym ";" t && Nat.eqb depth 0 then split_state 0 [] rest
      else if is_sym "{" t then split_state (S depth) (cur ++ [(p, t)]) rest
      else if is_sym "}" t then split_state (pred depth) (cur ++ [(p, t)]) rest
      else split_state depth (cur ++ [(p, t)]) rest
  end.

(** A text that ends where a statement ends: after it the tokenizer is
    between tokens (in no word, comment or directive) and the splitter is
    outside braces with no statement under way, its last token, if any,
    being a semicolon that closed one. *)
Definition closed (text : string) : bool :=
  match lx_mode (lex_state text), split_state 0 [] (lx_out (lex_state text)) with
  | Code, (0, []) => true
  | _, _ => false
  end.

(** The line feeds among the characters. *)
Fixpoint count_newlines (cs : list ascii) : nat :=
  match cs with
  | [] => 0
  | c :: rest => (if is_newline c then 1 else 0) + count_newlines rest
  end.

(** A position moved down by lines and right by characters. *)
Definition shift (lines chars : nat) (q : Pos) : Pos :=
  MkPos (lines + pos_line q) (chars + pos_offset q).

(** The position in a whole text of what is at position [q] of the part
    that follows [text] in it. *)
Definition shift_pos (text : string) (q : Pos) : Pos :=
  shift (count_newlines (list_ascii_of_string text))
        (length (list_ascii_of_string text)) q.

Definition shift_token (lines chars : nat) (t : Pos * token) : Pos * token :=
  (shift lines chars (fst t), snd t).

Definition shift_mode (lines chars : nat) (m : lex_mode) : lex_mode :=
  match m with
  | InWord start acc => InWord (shift lines chars start) acc
  | AfterSlash start => AfterSlash (shift lines chars start)
  | _ => m
  end.

(** The tokenizer that has the tokens [out] behind it and is, further
    down the text, where [lx] is. *)
Definition shift_lexer (lines chars : nat) (out : list (Pos * token)) (lx : lexer) : lexer :=
  Lexer (shift_mode lines chars (lx_mode lx))
        (shift lines chars (lx_pos lx))
        (out ++ map (shift_token lines chars) (lx_out lx)).

Definition shift_statement (lines chars : nat) (st : Statement) : Statement :=
  MkStatement (shift lines chars (stmt_pos st)) (stmt_tokens st).

(** The same statement at another position. *)
Definition reposition (f : Pos -> Pos) (p : Parsed) : Parsed :=
  MkParsed (f (parsed_pos p)) (parsed_snippet p) (parsed_decl p).

(** The same result, its diagnostic at another position. *)
Definition reposition_outcome (f : Pos -> Pos) (o : Outcome) : Outcome :=
  match o with
  | Bound u => Bound u
  | Rejected d => Rejected (MkDiagnostic (f (diag_pos d)) (diag_snippet d) (diag_error d))
  end.

(** *** What the emitted expressions mean

    Values are those of the C program, whatever they are; a cast, a
    function of the original library, a dereference and a field access are
    whatever the C program makes them.  The parameters of the adapter are
    bound to the caller's values in an environment; a call of a name that a
    parameter hides is no call of the original. *)
Section Meaning.
Variable V : Type.
Variable cast : string -> V -> V.
Variable original : string -> list V -> V.
Variable load : V -> V.
Variable member : V -> string -> V.

Fixpoint lookup_var (x : string) (env : list (string * V)) : option V :=
  match env with
  | [] => None
  | (y, v) :: rest => if String.eqb x y then Some v else lookup_var x rest
  end.

Fixpoint eval (env : list (string * V)) (e : CExpr) : option V :=
  match e with
  | EVar x => lookup_var x env
  | ECast ty e' => option_map (cast ty) (eval env e')
  | ECall f args =>
      match lookup_var f env with
      | Some _ => None
      | None =>
          option_map (original f)
            ((fix eval_all (l : list CExpr) : option (list V) :=
                match l with
                | [] => Some []
                | a :: rest =>
                    match eval env a, eval_all rest with
                    | Some v, Some vs => Some (v :: vs)
                    | _, _ => None
                    end
                end) args)
      end
  | EDeref e' => option_map load (eval env e')
  | EArrow e' fld => option_map (fun v => member v fld) (eval env e')
  end.

Fixpoint eval_all (env : list (string * V)) (l : list CExpr) : option (list V) :=
  match l with
  | [] => Some []
  | a :: rest =>
      match eval env a, eval_all env rest with
      | Some v, Some vs => Some (v :: vs)
      | _, _ => None
      end
  end.

(** The parameters of an adapter, bound to the values of a call. *)
Definition bind_params (a : Adapter) (vs : list V) : list (string * V) :=
  zip (map fst (adapter_params a)) vs.
End Meaning.

Arguments lookup_var {V} x env.
Arguments eval {V} cast original load member env e.
Arguments eval_all {V} cast original load member env l.
Arguments bind_params {V} a vs.

(** What the original is handed for a parameter of C type [t] mapped by
    [m], given the value [v] the adapter was called with: [v] cast where
    the mapping casts, [v] itself where the mapping passes it through. *)
Definition passed {V} (cast : string -> V -> V) (t : CType) (m : TypeMapping) (v : V) : V :=
  match conversion m with
  | ExplicitCast => cast (ctype_text t) v
  | Passthrough => v
  end.

(** The characters of an expression that applies no operator: those of
    identifiers, parentheses, the comma and the blank. *)
Definition plain_char (c : ascii) : bool :=
  is_word_char c || is_char c "(" || is_char c ")" || is_char c "," || is_char c " ".

(** A text that applies no operator. *)
Definition plain (t : string) : Prop :=
  Forall (fun c => plain_char c = true) (list_ascii_of_string t).

(** *** The fixtures *)

Definition dquote : string := String "034"%char EmptyString.

(** tests/e2e/c/simple_math.h, byte for byte. *)
Definition simple_math_h : string :=
"#ifndef SIMPLE_MATH_H
#define SIMPLE_MATH_H

/*
 * A tiny C library that our Lean code will call through the FFI.
 * This file is the " ++ dquote ++ "user-provided" ++ dquote ++ " header -- the kind of file
 * our transpiler will eventually parse automatically.
 */

int add(int a, int b);

#endif /* SIMPLE_MATH_H */

".

(** tests/headers/mixed_api.h, byte for byte (no final newline). *)
Definition mixed_api_h : string :=
"typedef struct db_conn db_conn;
db_conn *db_open(const char *path);
int db_close(db_conn *conn);
const char *db_error(db_conn *conn);
int db_execute(db_conn *conn, const char *sql);".

(** c/ffi.c, lines 16 to 18, byte for byte: the hand-written adapter. *)
Definition ffi_c_adapter : string :=
"uint32_t lean_simple_math_add(uint32_t a, uint32_t b) {
    return (uint32_t)add((int)a, (int)b);
}
".

(** The negative scenario: a header with a variadic function among
    valid declarations. *)
Definition variadic_h : string :=
"typedef struct db_conn db_conn;
int db_log(db_conn *conn, const char *fmt, ...);
int db_close(db_conn *conn);
".

(** The three declarations of the negative scenario, one text each:
    [variadic_h] is the three one after the other. *)
Definition db_conn_typedef : string :=
"typedef struct db_conn db_conn;
".

Definition db_log_prototype : string :=
"int db_log(db_conn *conn, const char *fmt, ...);
".

Definition db_close_prototype : string :=
"int db_close(db_conn *conn);
".

(** A function defined in a header: its text ends at a brace, not at a
    semicolon. *)
Definition inline_definition : string :=
"static inline int twice(int x) { return x + x; }
".

(** The prototype of tests/e2e/c/simple_math.h, alone. *)
Definition add_prototype : string :=
"int add(int a, int b);
".

Definition nothing_parsed : Parsed := MkParsed (MkPos 0 0) "" None.

(** An order of processing for mixed_api.h: [db_error] (the fourth
    statement) before [db_close] (the third). *)
Definition mixed_api_items : list (nat * Parsed) :=
  source_order (parse_header mixed_api_h).

Definition mixed_api_reordered : list (nat * Parsed) :=
  take 2 mixed_api_items ++
  default (0, nothing_parsed) (mixed_api_items !! 3) ::
  default (0, nothing_parsed) (mixed_api_items !! 2) ::
  drop 4 mixed_api_items.
End Bindgen.

(* ================================================================== *)
(** * Properties *)

(** ** The integer casts *)
Module CintFacts.
Import Cint.
Local Open Scope Z_scope.

Lemma uint32_of_int_range x : is_uint32 (uint32_of_int x).
Proof.
  unfold is_uint32, uint32_of_int, UINT32_MAX.
  pose proof (Z.mod_pos_bound x (2 ^ 32)). lia.
Qed.

Lemma int_of_uint32_range a : is_uint32 a -> is_int (int_of_uint32 a).
Proof.
  unfold is_uint32, is_int, int_of_uint32, UINT32_MAX, INT_MIN, INT_MAX.
  intros Ha. destruct (Z.leb_spec a (2 ^ 31 - 1)); lia.
Qed.

Lemma uint32_of_int_nonneg x : 0 <= x <= INT_MAX -> uint32_of_int x = x.
Proof.
  unfold uint32_of_int, INT_MAX. intros Hx. apply Z.mod_small. lia.
Qed.

Lemma int_of_uint32_small a : a <= INT_MAX -> int_of_uint32 a = a.
Proof.
  unfold int_of_uint32. intros Ha.
  destruct (Z.leb_spec a INT_MAX); [reflexivity | lia].
Qed.

(** The two casts are inverse to each other on the whole of each type. *)
Lemma int_of_uint32_of_int x : is_int x -> int_of_uint32 (uint32_of_int x) = x.
Proof.
  unfold is_int, int_of_uint32, uint32_of_int, INT_MIN, INT_MAX. intros Hx.
  destruct (Z_lt_le_dec x 0) as [Hneg | Hpos].
  - replace (x mod 2 ^ 32) with (x + 2 ^ 32).
    + destruct (Z.leb_spec (x + 2 ^ 32) (2 ^ 31 - 1)); lia.
    + apply Z.mod_unique with (q := -1); lia.
  - rewrite Z.mod_small by lia.
    destruct (Z.leb_spec x (2 ^ 31 - 1)); lia.
Qed.

Lemma uint32_of_int_of_uint32 a : is_uint32 a -> uint32_of_int (int_of_uint32 a) = a.
Proof.
  unfold is_uint32, int_of_uint32, uint32_of_int, UINT32_MAX, INT_MAX. intros Ha.
  destruct (Z.leb_spec a (2 ^ 31 - 1)).
  - apply Z.mod_small. lia.
  - symmetry. apply Z.mod_unique with (q := -1); lia.
Qed.
End CintFacts.

(** ** The adapter of c/ffi.c *)
Module FFIFacts.
Import Cint CintFacts FFI.
Local Open Scope Z_scope.

(** C1.  For the declaration [int add(int a, int b);] the adapter takes two
    32-bit unsigned values, hands [add] the two values cast to [int] (both
    are ints), calls [add] exactly once (the call log grows by that one
    call, and the library's state is the one that call leaves), and returns
    the result of [add] cast back to unsigned, a 32-bit unsigned value: the
    adapter only delegates, whatever [add] is. *)
Theorem lean_simple_math_add_delegates
    (world : Type) (add : Z -> Z -> world -> Z * world) (a b : Z) (s : lib_state world) :
  is_uint32 a -> is_uint32 b ->
  let x := int_of_uint32 a in
  let y := int_of_uint32 b in
  is_int x /\ is_int y /\
  lean_simple_math_add add a b s =
    (uint32_of_int (add x y (lib_world s)).1,
     LibState (add x y (lib_world s)).2 (lib_calls s ++ [Call_add x y])) /\
  is_uint32 (lean_simple_math_add add a b s).1.
Proof.
  intros Ha Hb x y.
  assert (Hrun : lean_simple_math_add add a b s =
    (uint32_of_int (add x y (lib_world s)).1,
     LibState (add x y (lib_world s)).2 (lib_calls s ++ [Call_add x y]))).
  { unfold lean_simple_math_add, lib_bind, call_add, lib_ret. fold x y.
    destruct (add x y (lib_world s)) as [r w]. reflexivity. }
  split; [apply int_of_uint32_range, Ha |].
  split; [apply int_of_uint32_range, Hb |].
  split; [exact Hrun |].
  rewrite Hrun. apply uint32_of_int_range.
Qed.

Lemma lean_simple_math_add_delegates_witness :
  lean_simple_math_add plain_add 7 4294967295 (LibState tt []) =
    (6, LibState tt [Call_add 7 (-1)]).
Proof.
  pose proof (lean_simple_math_add_delegates unit plain_add 7 4294967295 (LibState tt [])) as H.
  destruct H as (_ & _ & H & _).
  - unfold is_uint32, UINT32_MAX. lia.
  - unfold is_uint32, UINT32_MAX. lia.
  - exact H.
Defined.

(** C2.  Round trip of in-range values: when both arguments are
    representable as [int] and as [uint32_t] alike, and [add], called on
    them directly, returns such a value, the adapter returns that same
    number and leaves the library in the same state as the direct call. *)
Theorem lean_simple_math_add_roundtrip
    (world : Type) (add : Z -> Z -> world -> Z * world) (a b : Z) (s : lib_state world) :
  0 <= a <= INT_MAX -> 0 <= b <= INT_MAX ->
  0 <= (add a b (lib_world s)).1 <= INT_MAX ->
  (lean_simple_math_add add a b s).1 = (add a b (lib_world s)).1 /\
  lib_world (lean_simple_math_add add a b s).2 = (add a b (lib_world s)).2.
Proof.
  intros Ha Hb Hr.
  unfold lean_simple_math_add, lib_bind, call_add, lib_ret.
  rewrite !int_of_uint32_small by lia.
  destruct (add a b (lib_world s)) as [r w]. simpl in *.
  split; [apply uint32_of_int_nonneg; exact Hr | reflexivity].
Qed.

Lemma lean_simple_math_add_roundtrip_witness :
  (lean_simple_math_add plain_add 2 3 (LibState tt [])).1 = 5.
Proof.
  pose proof (lean_simple_math_add_roundtrip unit plain_add 2 3 (LibState tt [])) as H.
  destruct H as [H _].
  - unfold INT_MAX. lia.
  - unfold INT_MAX. lia.
  - unfold INT_MAX. simpl. lia.
  - exact H.
Defined.
End FFIFacts.

(** ** The handle library *)
Module HandleLibFacts.
Import HandleLib.
Local Open Scope c_scope.

(** *** Strings *)

Lemma until_nul_no_nul bs s : until_nul bs = Some s -> Forall (fun c => c <> x00) s.
Proof.
  revert s. induction bs as [| c rest IH]; intros s; simpl; [discriminate |].
  destruct (Byte.eqb c x00) eqn:Hc.
  - intros [= <-]. constructor.
  - destruct (until_nul rest) as [s' |]; [| discriminate].
    intros [= <-]. constructor; [| apply IH; reflexivity].
    intros ->. discriminate Hc.
Qed.

Lemma until_nul_terminated s rest :
  Forall (fun c => c <> x00) s -> until_nul (s ++ x00 :: rest) = Some s.
Proof.
  induction 1 as [| c s Hc _ IH]; simpl; [reflexivity |].
  rewrite IH. destruct (Byte.eqb c x00) eqn:E; [| reflexivity].
  apply Byte.byte_dec_bl in E. contradiction.
Qed.

(** *** The allocator *)

Lemma fresh_block_unused (hp : gmap positive cell) : hp !! fresh (dom hp) = None.
Proof. apply not_elem_of_dom, is_fresh. Qed.

Lemma malloc_granted o m :
  allocations_succeed 1 m ->
  malloc o m =
    Ret (Ptr (fresh (dom (heap m))) 0)
        (Memory (<[fresh (dom (heap m)) := Live o]> (heap m)) (tail (alloc_plan m))).
Proof.
  unfold allocations_succeed, malloc. destruct (alloc_plan m) as [| [] plan]; simpl; try reflexivity.
  intros H. apply Forall_cons in H as [H _]. discriminate H.
Qed.

Lemma malloc_refused o m :
  ~ allocations_succeed 1 m ->
  malloc o m = Ret NULL (Memory (heap m) (tail (alloc_plan m))).
Proof.
  unfold allocations_succeed, malloc. destruct (alloc_plan m) as [| [] plan]; simpl.
  - intros H. destruct H. constructor.
  - intros H. destruct H. rewrite take_0. repeat constructor.
  - reflexivity.
Qed.

Lemma allocations_succeed_tail n m hp :
  allocations_succeed (S n) m -> allocations_succeed n (Memory hp (tail (alloc_plan m))).
Proof.
  unfold allocations_succeed. simpl. destruct (alloc_plan m) as [| g plan]; simpl.
  - intros _. rewrite take_nil. constructor.
  - intros H. apply Forall_cons in H as [_ H]. exact H.
Qed.

Lemma allocations_succeed_S n m hp :
  allocations_succeed 1 m ->
  allocations_succeed n (Memory hp (tail (alloc_plan m))) ->
  allocations_succeed (S n) m.
Proof.
  unfold allocations_succeed. simpl. destruct (alloc_plan m) as [| g plan]; simpl.
  - intros _ _. constructor.
  - rewrite take_0. intros H1 H2. apply Forall_cons in H1 as [H1 _].
    constructor; assumption.
Qed.

Lemma allocations_succeed_dec n m : {allocations_succeed n m} + {~ allocations_succeed n m}.
Proof.
  unfold allocations_succeed. apply Forall_dec. intros g. destruct g; [left | right]; congruence.
Qed.

(** *** Framing: a block allocated or clobbered elsewhere *)

Lemma cstring_at_other m p s b c plan :
  cstring_at m p = Some s ->
  (forall off, p <> Ptr b off) ->
  cstring_at (Memory (<[b := c]> (heap m)) plan) p = Some s.
Proof.
  destruct p as [| pb off]; simpl; [discriminate |].
  intros H Hne. rewrite lookup_insert_ne; [exact H |].
  intros ->. apply (Hne off). reflexivity.
Qed.

Lemma cstring_at_live m p s : cstring_at m p = Some s ->
  exists b off bs, p = Ptr b off /\ heap m !! b = Some (Live (CharArray bs)).
Proof.
  destruct p as [| b off]; simpl; [discriminate |].
  destruct (heap m !! b) as [[[bs | ?] |] |] eqn:E; try discriminate.
  intros _. exists b, off, bs. split; [reflexivity | exact E].
Qed.

Lemma cstring_at_fresh m p s c plan :
  cstring_at m p = Some s ->
  cstring_at (Memory (<[fresh (dom (heap m)) := c]> (heap m)) plan) p = Some s.
Proof.
  intros H. apply cstring_at_other; [exact H |].
  intros off ->. apply cstring_at_live in H as (b & off' & bs & [= <- <-] & Hb).
  rewrite fresh_block_unused in Hb. discriminate.
Qed.

Lemma strdup_spec m p s :
  cstring_at m p = Some s ->
  strdup p m = malloc (CharArray (s ++ [x00])) m.
Proof.
  intros H. unfold strdup, bind, read_cstring. rewrite H.
  destruct p; [discriminate | reflexivity].
Qed.

(** *** handle_create, run symbolically *)

(** Once malloc has granted the struct, handle_create returns it, its name
    set to whatever strdup returned. *)
Lemma handle_create_granted m name s :
  cstring_at m name = Some s ->
  allocations_succeed 1 m ->
  let hb := fresh (dom (heap m)) in
  let m1 := Memory (<[hb := Live (HandleStruct None)]> (heap m)) (tail (alloc_plan m)) in
  exists n m2,
    malloc (CharArray (s ++ [x00])) m1 = Ret n m2 /\
    heap m2 !! hb = Some (Live (HandleStruct None)) /\
    handle_create name m =
      Ret (Ptr hb 0)
          (Memory (<[hb := Live (HandleStruct (Some n))]> (heap m2)) (alloc_plan m2)).
Proof.
  intros Hs Hg hb m1.
  assert (Hhb : heap m1 !! hb = Some (Live (HandleStruct None))).
  { unfold m1. simpl. apply lookup_insert_eq. }
  assert (Hm : exists n m2, malloc (CharArray (s ++ [x00])) m1 = Ret n m2 /\
                            heap m2 !! hb = Some (Live (HandleStruct None))).
  { destruct (allocations_succeed_dec 1 m1) as [Hg1 | Hr1].
    - rewrite (malloc_granted _ _ Hg1). eexists _, _. split; [reflexivity |].
      simpl. rewrite lookup_insert_ne; [apply lookup_insert_eq |].
      intros E. pose proof (fresh_block_unused (heap m1)) as Hf.
      simpl in Hf. rewrite E, lookup_insert_eq in Hf. discriminate.
    - rewrite (malloc_refused _ _ Hr1). eexists _, _. split; [reflexivity | exact Hhb]. }
  destruct Hm as (n & m2 & Hm & Hhb2). exists n, m2. split; [exact Hm |]. split; [exact Hhb2 |].
  unfold handle_create, bind. rewrite (malloc_granted _ _ Hg). fold hb. fold m1.
  rewrite (strdup_spec m1 name s) by (apply cstring_at_fresh; exact Hs).
  rewrite Hm. unfold set_name. rewrite Hhb2. reflexivity.
Qed.

(** When malloc refuses the struct, the store to [h->name] goes through
    the null pointer. *)
Lemma handle_create_refused m name s :
  cstring_at m name = Some s ->
  ~ allocations_succeed 1 m ->
  handle_create name m = Fault NullDereference.
Proof.
  intros Hs Hr. unfold handle_create, bind. rewrite (malloc_refused _ _ Hr).
  rewrite (strdup_spec _ name s).
  - unfold malloc. simpl. destruct (tail (alloc_plan m)) as [| [] plan]; reflexivity.
  - destruct name as [| b off]; [discriminate | exact Hs].
Qed.

Lemma handle_create_valid m name h m' :
  handle_create name m = Ret h m' -> valid_handle m' h.
Proof.
  unfold handle_create, bind.
  destruct (malloc (HandleStruct None) m) as [h0 m1 |] eqn:Hm; [| discriminate].
  destruct (strdup name m1) as [n m2 |] eqn:Hd; [| discriminate].
  destruct (set_name h0 n m2) as [[] m3 |] eqn:Hset; [| discriminate].
  intros [= <- <-].
  unfold set_name in Hset. destruct h0 as [| hb off]; [discriminate |].
  destruct (heap m2 !! hb) as [[[? | old] |] |] eqn:Hhb; try discriminate.
  destruct off; [| discriminate]. injection Hset as <-.
  exists hb, n. split; [reflexivity |]. simpl. split; [apply lookup_insert_eq |].
  unfold strdup, bind in Hd.
  destruct (read_cstring name m1) as [s m1' |] eqn:Hr; [| discriminate].
  assert (m1' = m1) as ->.
  { unfold read_cstring in Hr. destruct name; [discriminate |].
    destruct (cstring_at m1 _); [| discriminate]. injection Hr as _ <-. reflexivity. }
  unfold malloc in Hd.
  destruct (alloc_plan m1) as [| [] plan]; injection Hd as <- <-; simpl in *;
    try (left; reflexivity).
  all: right; eexists _, _; split; [reflexivity |];
    rewrite lookup_insert_ne; [apply lookup_insert_eq |];
    intros E; rewrite E, lookup_insert_eq in Hhb; discriminate.
Qed.

Lemma handle_close_valid m h :
  valid_handle m h -> exists m', handle_close h m = Ret 0%Z m'.
Proof.
  intros (b & n & -> & Hb & Hn).
  unfold handle_close, bind, get_name. rewrite Hb.
  destruct Hn as [-> | (nb & bs & -> & Hnb)]; simpl.
  - rewrite Hb. eexists. reflexivity.
  - rewrite Hnb. simpl. rewrite lookup_insert_ne.
    + rewrite Hb. eexists. reflexivity.
    + intros <-. rewrite Hb in Hnb. discriminate.
Qed.

Lemma handle_close_value h m r m' : handle_close h m = Ret r m' -> r = 0%Z.
Proof.
  unfold handle_close, bind, ret.
  destruct (get_name h m) as [n m1 |]; [| discriminate].
  destruct (free n m1) as [[] m2 |]; [| discriminate].
  destruct (free h m2) as [[] m3 |]; [| discriminate].
  intros [= <- _]. reflexivity.
Qed.

(** *** The claims about the library *)

(** C8.  Round trip of the name: for a NUL-terminated string [s] at [name]
    and an allocator that grants both requests, [handle_create] returns a
    handle whose [handle_name] designates a string equal to [s]; the string
    is a copy in a block of its own, so it stays [s] whatever becomes of
    the caller's block afterwards (overwritten or freed). *)
Theorem handle_name_handle_create m name s :
  cstring_at m name = Some s ->
  allocations_succeed 2 m ->
  exists h m' p,
    handle_create name m = Ret h m' /\
    handle_name h m' = Ret p m' /\
    cstring_at m' p = Some s /\
    forall b off c, name = Ptr b off ->
      handle_name h (clobber b c m') = Ret p (clobber b c m') /\
      cstring_at (clobber b c m') p = Some s.
Proof.
  intros Hs Hg.
  assert (Hg1 : allocations_succeed 1 m).
  { unfold allocations_succeed in *. destruct (alloc_plan m) as [| g plan]; [constructor |].
    simpl in Hg. apply Forall_cons in Hg as [-> _]. cbn. repeat constructor. }
  destruct (handle_create_granted m name s Hs Hg1) as (n & m2 & Hm & _ & Hc).
  set (hb := fresh (dom (heap m))) in *.
  set (m1 := Memory (<[hb := Live (HandleStruct None)]> (heap m)) (tail (alloc_plan m))) in *.
  rewrite malloc_granted in Hm by (apply allocations_succeed_tail; exact Hg).
  injection Hm as <- <-. simpl in Hc.
  set (nb := fresh (dom (<[hb := Live (HandleStruct None)]> (heap m)))) in *.
  assert (Hne : nb <> hb).
  { intros E. pose proof (fresh_block_unused (<[hb := Live (HandleStruct None)]> (heap m))) as Hf.
    fold nb in Hf. rewrite E, lookup_insert_eq in Hf. discriminate. }
  assert (Hcopy : until_nul (s ++ [x00]) = Some s).
  { apply until_nul_terminated. destruct name as [| b off]; [discriminate |]. simpl in Hs.
    destruct (heap m !! b) as [[[bs | ?] |] |]; try discriminate.
    eapply until_nul_no_nul, Hs. }
  eexists _, _, _. split; [exact Hc |].
  split; [unfold handle_name, get_name; simpl; rewrite lookup_insert_eq; reflexivity |].
  split.
  { simpl. rewrite lookup_insert_ne by (intros E; apply Hne; symmetry; exact E).
    rewrite lookup_insert_eq. exact Hcopy. }
  intros b off c ->.
  apply cstring_at_live in Hs as (b' & off' & bs & [= <- <-] & Hb).
  assert (Hbh : b <> hb).
  { intros ->. unfold hb in Hb. rewrite fresh_block_unused in Hb. discriminate. }
  assert (Hbn : b <> nb).
  { intros ->. pose proof (fresh_block_unused (<[hb := Live (HandleStruct None)]> (heap m))) as Hf.
    fold nb in Hf. rewrite lookup_insert_ne, Hb in Hf by (intros E; apply Hne; symmetry; exact E).
    discriminate. }
  unfold handle_name, get_name, clobber. simpl.
  rewrite (lookup_insert_ne _ b hb) by exact Hbh. rewrite lookup_insert_eq.
  split; [reflexivity |].
  rewrite (lookup_insert_ne _ b nb) by exact Hbn.
  rewrite lookup_insert_ne by (intros E; apply Hne; symmetry; exact E).
  rewrite lookup_insert_eq. exact Hcopy.
Qed.

Lemma handle_name_handle_create_witness :
  exists h m' p,
    handle_create (Ptr 1 0) (caller_memory []) = Ret h m' /\
    handle_name h m' = Ret p m' /\
    cstring_at m' p = Some [x64; x62] /\
    forall b off c, Ptr 1 0 = Ptr b off ->
      handle_name h (clobber b c m') = Ret p (clobber b c m') /\
      cstring_at (clobber b c m') p = Some [x64; x62].
Proof.
  apply (handle_name_handle_create (caller_memory []) (Ptr 1 0) [x64; x62]).
  - reflexivity.
  - unfold allocations_succeed. simpl. constructor.
Defined.

(** C9.  [handle_close] on a handle that [handle_create] produced returns
    0, and 0 is the only value [handle_close] ever returns: the function
    has no failure return. *)
Theorem handle_close_returns_zero m name h m' :
  handle_create name m = Ret h m' ->
  (exists m'', handle_close h m' = Ret 0%Z m'') /\
  (forall m0 r m1, handle_close h m0 = Ret r m1 -> r = 0%Z).
Proof.
  intros Hc. split.
  - apply handle_close_valid. eapply handle_create_valid, Hc.
  - intros m0 r m1. apply handle_close_value.
Qed.

Lemma handle_close_returns_zero_witness :
  exists h m',
    handle_create (Ptr 1 0) (caller_memory [true; false]) = Ret h m' /\
    exists m'', handle_close h m' = Ret 0%Z m''.
Proof.
  eexists _, _. split; [vm_compute; reflexivity |].
  eapply (handle_close_returns_zero (caller_memory [true; false]) (Ptr 1 0)).
  vm_compute. reflexivity.
Defined.

(** C10, as the claim has it, fails: with the struct granted and the copy
    refused, [handle_create] returns, without a fault, a handle whose name
    is NULL; so it is not only when both allocations succeed that it
    returns. *)
Lemma handle_create_returns_without_strdup :
  ~ (forall m name s,
       cstring_at m name = Some s ->
       returns (handle_create name m) -> allocations_succeed 2 m).
Proof.
  intros H.
  specialize (H (caller_memory [true; false]) (Ptr 1 0) [x64; x62] eq_refl).
  assert (Hr : returns (handle_create (Ptr 1 0) (caller_memory [true; false]))).
  { vm_compute. exact I. }
  apply H in Hr. unfold allocations_succeed in Hr. simpl in Hr.
  apply Forall_cons in Hr as [_ Hr]. apply Forall_cons in Hr as [Hr _]. discriminate Hr.
Qed.

(** C10, amended.  [handle_create] writes through the result of malloc
    without a null check, and stores the result of strdup without looking
    at it.  On a NUL-terminated [name] it returns if and only if malloc
    grants the struct; refused, the store is a null dereference; granted
    with the copy refused, the handle it returns has the name NULL. *)
Theorem handle_create_returns_iff_malloc m name s :
  cstring_at m name = Some s ->
  (returns (handle_create name m) <-> allocations_succeed 1 m) /\
  (~ allocations_succeed 1 m -> handle_create name m = Fault NullDereference) /\
  (allocations_succeed 1 m -> ~ allocations_succeed 2 m ->
   exists h m', handle_create name m = Ret h m' /\ handle_name h m' = Ret NULL m').
Proof.
  intros Hs. split; [| split].
  - split.
    + intros Hr. destruct (allocations_succeed_dec 1 m) as [Hg | Hn]; [exact Hg |].
      rewrite (handle_create_refused m name s Hs Hn) in Hr. destruct Hr.
    + intros Hg. destruct (handle_create_granted m name s Hs Hg) as (n & m2 & _ & _ & ->).
      exact I.
  - intros Hn. exact (handle_create_refused m name s Hs Hn).
  - intros Hg Hn2.
    destruct (handle_create_granted m name s Hs Hg) as (n & m2 & Hm & _ & Hc).
    rewrite malloc_refused in Hm.
    + injection Hm as <- <-. eexists _, _. split; [exact Hc |].
      unfold handle_name, get_name. simpl. rewrite lookup_insert_eq. reflexivity.
    + intros Hg2. apply Hn2. eapply allocations_succeed_S; [exact Hg | exact Hg2].
Qed.

Lemma handle_create_returns_iff_malloc_witness :
  handle_create (Ptr 1 0) (caller_memory [false; true]) = Fault NullDereference.
Proof.
  destruct (handle_create_returns_iff_malloc (caller_memory [false; true]) (Ptr 1 0) [x64; x62])
    as (_ & H & _).
  - reflexivity.
  - apply H. unfold allocations_succeed. simpl. intros Hg.
    apply Forall_cons in Hg as [Hg _]. discriminate Hg.
Defined.
End HandleLibFacts.

(** ** The binding generator *)
Module BindgenFacts.
Import Bindgen.
Local Open Scope string_scope.
Local Open Scope list_scope.

(** *** Runs in source order *)

Lemma run_items_spec prefix ctx items :
  run_items prefix ctx items =
    (zip (map fst items) (outcomes prefix ctx (map snd items)),
     context_after prefix ctx (map snd items)).
Proof.
  revert ctx. induction items as [| [i p] rest IH]; intros ctx; simpl; [reflexivity |].
  destruct (process prefix ctx p) as [o ctx1]. simpl. rewrite IH. reflexivity.
Qed.

Lemma outcomes_length prefix ctx ps : length (outcomes prefix ctx ps) = length ps.
Proof.
  revert ctx. induction ps as [| p rest IH]; intros ctx; simpl; [reflexivity |].
  rewrite IH. reflexivity.
Qed.

Lemma outcomes_app prefix ctx ps qs :
  outcomes prefix ctx (ps ++ qs) =
    outcomes prefix ctx ps ++ outcomes prefix (context_after prefix ctx ps) qs.
Proof.
  revert ctx. induction ps as [| p rest IH]; intros ctx; simpl; [reflexivity |].
  rewrite IH. reflexivity.
Qed.

Lemma context_after_app prefix ctx ps qs :
  context_after prefix ctx (ps ++ qs) =
    context_after prefix (context_after prefix ctx ps) qs.
Proof.
  revert ctx. induction ps as [| p rest IH]; intros ctx; simpl; [reflexivity |].
  apply IH.
Qed.

Global Instance index_le_trans {A} : Transitive (@index_le A).
Proof. intros x y z. unfold index_le. lia. Qed.

Global Instance index_le_total {A} : Total (@index_le A).
Proof. intros x y. unfold index_le. lia. Qed.

Lemma NoDup_fst_inj {A} (l : list (nat * A)) x y :
  NoDup (map fst l) -> x ∈ l -> y ∈ l -> fst x = fst y -> x = y.
Proof.
  induction l as [| z l IH]; simpl; intros Hnd Hx Hy Hxy.
  - apply elem_of_nil in Hx. destruct Hx.
  - apply NoDup_cons in Hnd as [Hz Hnd].
    apply elem_of_cons in Hx as [-> | Hx]; apply elem_of_cons in Hy as [-> | Hy].
    + reflexivity.
    + destruct Hz. rewrite Hxy. apply list_elem_of_fmap. exists y. split; [reflexivity | exact Hy].
    + destruct Hz. rewrite <- Hxy. apply list_elem_of_fmap. exists x. split; [reflexivity | exact Hx].
    + apply IH; assumption.
Qed.

(** Sorting by index is determined by the set of results, as long as no
    index occurs twice. *)
Lemma merge_sort_index_unique {A} (l1 l2 : list (nat * A)) :
  l1 ≡ₚ l2 -> NoDup (map fst l2) ->
  merge_sort index_le l1 = merge_sort index_le l2.
Proof.
  intros Hp Hnd. apply (Sorted_unique_strong index_le).
  - intros x y Hx Hy Hxy Hyx. apply (NoDup_fst_inj l2).
    + exact Hnd.
    + rewrite merge_sort_Permutation, Hp in Hx. exact Hx.
    + rewrite merge_sort_Permutation in Hy. exact Hy.
    + unfold index_le in *. lia.
  - apply Sorted_merge_sort. apply _.
  - apply Sorted_merge_sort. apply _.
  - rewrite !merge_sort_Permutation. exact Hp.
Qed.

Lemma merge_sort_index_sorted {A} (l : list (nat * A)) :
  Sorted index_le l -> NoDup (map fst l) -> merge_sort index_le l = l.
Proof.
  intros Hs Hnd. apply (Sorted_unique_strong index_le).
  - intros x y Hx Hy Hxy Hyx. apply (NoDup_fst_inj l).
    + exact Hnd.
    + rewrite merge_sort_Permutation in Hx. exact Hx.
    + exact Hy.
    + unfold index_le in *. lia.
  - apply Sorted_merge_sort. apply _.
  - exact Hs.
  - apply merge_sort_Permutation.
Qed.

Lemma source_order_from_fst k (ps : list Parsed) :
  map fst (imap (fun i => pair (k + i)) ps) = seq k (length ps).
Proof.
  revert k. induction ps as [| p rest IH]; intros k; simpl; [reflexivity |].
  f_equal; [lia |]. rewrite <- (IH (S k)). f_equal.
  apply imap_ext. intros i x _. simpl. f_equal. lia.
Qed.

Lemma source_order_from_snd k (ps : list Parsed) :
  map snd (imap (fun i => pair (k + i)) ps) = ps.
Proof.
  revert k. induction ps as [| p rest IH]; intros k; simpl; [reflexivity |].
  f_equal. rewrite <- (IH (S k)) at 2. f_equal.
  apply imap_ext. intros i x _. simpl. f_equal. lia.
Qed.

Lemma source_order_fst ps : map fst (source_order ps) = seq 0 (length ps).
Proof. apply (source_order_from_fst 0). Qed.

Lemma source_order_snd ps : map snd (source_order ps) = ps.
Proof. apply (source_order_from_snd 0). Qed.

Lemma zip_seq_sorted {A} k (l : list A) : Sorted index_le (zip (seq k (length l)) l).
Proof.
  revert k. induction l as [| x l IH]; intros k; simpl; [constructor |].
  constructor; [apply IH |].
  destruct l; simpl; constructor. unfold index_le. simpl. lia.
Qed.

(** Processed in source order, the results come out in source order:
    collecting them changes nothing. *)
Lemma run_statements_spec prefix known ps :
  run_statements prefix known ps =
    report (outcomes prefix (MkContext known ∅) ps)
           (context_after prefix (MkContext known ∅) ps).
Proof.
  unfold run_statements, run_in_order. rewrite run_items_spec.
  rewrite source_order_fst, source_order_snd. f_equal.
  unfold collect.
  rewrite <- (outcomes_length prefix (MkContext known ∅) ps) at 1.
  rewrite merge_sort_index_sorted.
  - apply snd_zip. rewrite length_seq. reflexivity.
  - apply zip_seq_sorted.
  - change (NoDup (zip (seq 0 (length (outcomes prefix (MkContext known ∅) ps)))
                       (outcomes prefix (MkContext known ∅) ps)).*1).
    rewrite fst_zip by (rewrite length_seq; reflexivity).
    apply NoDup_seq.
Qed.

(** *** One statement *)

Lemma process_malformed prefix ctx p :
  parsed_decl p = None ->
  process prefix ctx p =
    (Rejected (MkDiagnostic (parsed_pos p) (parsed_snippet p) ParseError), ctx).
Proof. unfold process. intros ->. reflexivity. Qed.

Lemma process_decl prefix ctx p d :
  parsed_decl p = Some d ->
  process prefix ctx p =
    match unit_status (emit prefix ctx d) with
    | Emitted => (Bound (emit prefix ctx d), register prefix d ctx)
    | Failed e => (Rejected (MkDiagnostic (parsed_pos p) (parsed_snippet p) e), ctx)
    end.
Proof. unfold process. intros ->. reflexivity. Qed.

(** A rejected statement leaves the context as it was. *)
Lemma process_rejected_context prefix ctx p :
  is_rejected (fst (process prefix ctx p)) = true -> snd (process prefix ctx p) = ctx.
Proof.
  unfold process. destruct (parsed_decl p) as [d |]; [| reflexivity].
  destruct (unit_status (emit prefix ctx d)); [discriminate | reflexivity].
Qed.

(** *** Mapper and emitter *)

Lemma map_use_type reg t m : map_use reg t = Ok m -> map_type t = Some m.
Proof.
  unfold map_use. destruct (map_type t) as [m' |]; [| discriminate].
  destruct (targetRepresentation m'); try (intros [= ->]; reflexivity).
  destruct (decide _); [intros [= ->]; reflexivity | discriminate].
Qed.

Lemma map_use_handle reg h m :
  map_use reg (OpaquePointer h) = Ok m -> h ∈ reg /\ m = Mapping (Handle h) Passthrough.
Proof.
  unfold map_use. simpl. destruct (decide (h ∈ reg)); [| discriminate].
  intros [= <-]. split; [assumption | reflexivity].
Qed.

Lemma map_use_error reg t e : map_use reg t = Err e -> e = UnknownTypeError.
Proof.
  unfold map_use. destruct (map_type t) as [m |]; [| intros [= <-]; reflexivity].
  destruct (targetRepresentation m); try discriminate.
  destruct (decide _); [discriminate | intros [= <-]; reflexivity].
Qed.

Lemma map_params_lookup reg ps ms :
  map_params reg ps = Ok ms ->
  length ms = length ps /\
  forall i x t, ps !! i = Some (x, t) ->
    exists m, ms !! i = Some (x, t, m) /\ map_use reg t = Ok m.
Proof.
  revert ms. induction ps as [| [x0 t0] rest IH]; simpl; intros ms.
  - intros [= <-]. split; [reflexivity |]. intros i x t Hi. discriminate Hi.
  - destruct (map_use reg t0) as [m0 | e0] eqn:H0.
    + destruct (map_params reg rest) as [ms' | e']; [| discriminate].
      intros [= <-]. destruct (IH ms' eq_refl) as [Hlen Hl].
      split; [simpl; rewrite Hlen; reflexivity |].
      intros [| i] x t; simpl.
      * intros [= <- <-]. exists m0. split; [reflexivity | exact H0].
      * apply Hl.
    + discriminate.
Qed.

Lemma map_params_error reg ps e : map_params reg ps = Err e -> e = UnknownTypeError.
Proof.
  induction ps as [| [x0 t0] rest IH]; simpl; [discriminate |].
  destruct (map_use reg t0) as [m0 | e0] eqn:H0.
  - destruct (map_params reg rest) as [ms' | e']; [discriminate |].
    intros [= <-]. apply IH. reflexivity.
  - intros [= <-]. eapply map_use_error, H0.
Qed.

Lemma map_function_inv reg f ps r md :
  map_function reg f ps r = Ok md ->
  exists ms m,
    md = MkMapped f ms (r, m) /\ map_params reg ps = Ok ms /\ map_use reg r = Ok m.
Proof.
  unfold map_function.
  destruct (map_params reg ps) as [ms | e]; [| discriminate].
  destruct (map_use reg r) as [m | e]; [| discriminate].
  intros [= <-]. exists ms, m. repeat split.
Qed.

Lemma build_adapter_inv prefix ctx f ps r a :
  build_adapter prefix ctx f ps r = Ok a ->
  exists ms m,
    map_params (registry ctx) ps = Ok ms /\ map_use (registry ctx) r = Ok m /\
    (adapter_name prefix f ∉ symbols ctx) /\
    a = emit_adapter prefix (MkMapped f ms (r, m)).
Proof.
  unfold build_adapter.
  destruct (map_function (registry ctx) f ps r) as [md | e] eqn:Hm; [| discriminate].
  destruct (well_named f ps); [| discriminate]. simpl.
  destruct (decide _) as [| Hfree]; [discriminate |]. intros [= <-].
  apply map_function_inv in Hm as (ms & m & -> & Hps & Hr).
  exists ms, m. repeat split; assumption.
Qed.

Lemma build_adapter_well_named prefix ctx f ps r a :
  build_adapter prefix ctx f ps r = Ok a -> well_named f ps = true.
Proof.
  unfold build_adapter.
  destruct (map_function (registry ctx) f ps r) as [md | e]; [| discriminate].
  destruct (well_named f ps); [reflexivity | discriminate].
Qed.

Lemma call_arguments_no_deref ms : forallb no_deref (call_arguments ms) = true.
Proof.
  unfold call_arguments. induction ms as [| [[x t] m] rest IH]; simpl; [reflexivity |].
  rewrite IH. unfold convert_argument. destruct (conversion m); reflexivity.
Qed.

Lemma emit_function_emitted prefix ctx f ps r :
  unit_status (emit prefix ctx (FunctionDecl f ps r)) = Emitted ->
  exists a,
    build_adapter prefix ctx f ps r = Ok a /\
    emit prefix ctx (FunctionDecl f ps r) = MkUnit (render_adapter a) f Emitted.
Proof.
  simpl. destruct (build_adapter prefix ctx f ps r) as [a | e]; [| discriminate].
  intros _. exists a. split; reflexivity.
Qed.

(** *** Names, environments and texts *)

Lemma distinct_NoDup names : distinct names = true -> NoDup names.
Proof.
  induction names as [| x rest IH]; simpl; [constructor |].
  intros H. apply andb_true_iff in H as [Hx Hrest]. constructor; [| apply IH, Hrest].
  intros Hin. apply negb_true_iff in Hx.
  assert (Hex : existsb (String.eqb x) rest = true).
  { apply existsb_exists. exists x. split; [apply list_elem_of_In, Hin | apply String.eqb_refl]. }
  rewrite Hex in Hx. discriminate.
Qed.

Lemma well_named_inv f ps :
  well_named f ps = true ->
  is_identifier f = true /\
  Forall (fun p => is_identifier (fst p) = true) ps /\
  (f ∉ map fst ps) /\ NoDup (map fst ps).
Proof.
  unfold well_named. intros H.
  apply andb_true_iff in H as [H Hd]. apply andb_true_iff in H as [Hf Hps].
  apply distinct_NoDup, NoDup_cons in Hd as [Hfresh Hnd].
  split; [exact Hf |]. split; [| split; assumption].
  apply Forall_forall. intros p Hp. rewrite forallb_forall in Hps.
  apply Hps, list_elem_of_In, Hp.
Qed.

Lemma map_params_names reg ps ms :
  map_params reg ps = Ok ms -> map (fun p => fst (fst p)) ms = map fst ps.
Proof.
  revert ms. induction ps as [| [x t] rest IH]; simpl; intros ms.
  - intros [= <-]. reflexivity.
  - destruct (map_use reg t) as [m0 | e0]; [| discriminate].
    destruct (map_params reg rest) as [ms' | e']; [| discriminate].
    intros [= <-]. simpl. rewrite (IH ms' eq_refl). reflexivity.
Qed.

Section MeaningFacts.
Variable V : Type.
Variable cast : string -> V -> V.
Variable original : string -> list V -> V.
Variable load : V -> V.
Variable member : V -> string -> V.

Lemma lookup_var_absent x names (vs : list V) :
  x ∉ names -> lookup_var x (zip names vs) = None.
Proof.
  revert vs. induction names as [| y rest IH]; intros vs Hx; [reflexivity |].
  destruct vs as [| v vs]; [reflexivity |]. simpl.
  apply not_elem_of_cons in Hx as [Hne Hx].
  destruct (String.eqb_spec x y) as [-> | _]; [contradiction | apply IH, Hx].
Qed.

(** With no name twice, a parameter stands for the value at its position. *)
Lemma lookup_var_position names (vs : list V) i x :
  NoDup names -> names !! i = Some x -> length vs = length names ->
  lookup_var x (zip names vs) = vs !! i.
Proof.
  revert vs i. induction names as [| y rest IH]; intros vs i Hnd Hi Hlen; [discriminate |].
  destruct vs as [| v vs]; [discriminate |]. simpl in Hlen.
  apply NoDup_cons in Hnd as [Hy Hnd]. simpl.
  destruct i as [| i]; simpl in *.
  - injection Hi as ->. rewrite String.eqb_refl. reflexivity.
  - destruct (String.eqb_spec x y) as [-> | _].
    + destruct Hy. eapply list_elem_of_lookup_2, Hi.
    + apply IH; [exact Hnd | exact Hi | lia].
Qed.

Lemma eval_call env f args :
  eval cast original load member env (ECall f args) =
    match lookup_var f env with
    | Some _ => None
    | None => option_map (original f) (eval_all cast original load member env args)
    end.
Proof.
  simpl. destruct (lookup_var f env); [reflexivity |]. f_equal.
  induction args as [| a rest IH]; simpl; [reflexivity |]. rewrite IH. reflexivity.
Qed.

Lemma eval_all_pointwise env l vals :
  Forall2 (fun e v => eval cast original load member env e = Some v) l vals ->
  eval_all cast original load member env l = Some vals.
Proof.
  induction 1 as [| e v l vals He _ IH]; simpl; [reflexivity |].
  rewrite He, IH. reflexivity.
Qed.
End MeaningFacts.

Lemma chars_app (x y : string) :
  list_ascii_of_string (x ++ y) = list_ascii_of_string x ++ list_ascii_of_string y.
Proof.
  induction x as [| c x IH]; [reflexivity |].
  change (c :: list_ascii_of_string (x ++ y)%string =
          c :: (list_ascii_of_string x ++ list_ascii_of_string y)).
  rewrite IH. reflexivity.
Qed.

Lemma plain_app x y : plain x -> plain y -> plain (x ++ y)%string.
Proof. unfold plain. rewrite chars_app. intros Hx Hy. apply Forall_app. split; assumption. Qed.

Lemma plain_literal t : forallb plain_char (list_ascii_of_string t) = true -> plain t.
Proof. unfold plain. intros H. apply Forall_forall. intros c Hc.
  rewrite forallb_forall in H. apply H, list_elem_of_In, Hc. Qed.

Lemma plain_identifier x : is_identifier x = true -> plain x.
Proof.
  unfold is_identifier, plain. intros H. apply andb_true_iff in H as [_ H].
  apply Forall_forall. intros c Hc. rewrite forallb_forall in H.
  unfold plain_char. rewrite (H c) by (apply list_elem_of_In, Hc). reflexivity.
Qed.

Lemma plain_concat (ts : list string) :
  Forall plain ts -> plain (String.concat ", " ts).
Proof.
  induction 1 as [| t ts Ht Hts IH]; [constructor |].
  destruct ts as [| t' ts]; [exact Ht |].
  change (plain (t ++ ", " ++ String.concat ", " (t' :: ts))%string).
  apply plain_app; [exact Ht |]. apply plain_app; [| exact IH].
  apply plain_literal. reflexivity.
Qed.

(** An explicit cast is a cast to [int] or [unsigned int]. *)
Lemma cast_text_plain t m :
  map_type t = Some m -> conversion m = ExplicitCast -> plain (ctype_text t).
Proof.
  destruct t as [w sg | t' | h | t']; simpl.
  - destruct (w =? 32)%N eqn:Hw; [| discriminate]. intros _ _.
    apply N.eqb_eq in Hw as ->. destruct sg; apply plain_literal; reflexivity.
  - discriminate.
  - intros [= <-]. discriminate.
  - destruct t' as [| [w sg | | |] | |]; try discriminate.
    destruct (w =? 8)%N; [| discriminate]. intros [= <-]. discriminate.
Qed.

Lemma result_text_plain t m :
  map_type t = Some m -> conversion m = ExplicitCast ->
  plain (target_text (targetRepresentation m)).
Proof.
  destruct t as [w sg | t' | h | t']; simpl.
  - destruct (w =? 32)%N; [| discriminate]. intros [= <-] _. apply plain_literal. reflexivity.
  - discriminate.
  - intros [= <-]. discriminate.
  - destruct t' as [| [w sg | | |] | |]; try discriminate.
    destruct (w =? 8)%N; [| discriminate]. intros [= <-]. discriminate.
Qed.

Lemma plain_char_no_operator c :
  plain_char c = true ->
  c <> "*"%char /\ c <> "-"%char /\ c <> ">"%char /\ c <> "."%char /\ c <> "["%char.
Proof. intros H. repeat split; intros ->; vm_compute in H; discriminate. Qed.

Lemma call_arguments_plain ps ms reg :
  map_params reg ps = Ok ms ->
  Forall (fun p => is_identifier (fst p) = true) ps ->
  Forall plain (map render_expr (call_arguments ms)).
Proof.
  revert ms. induction ps as [| [x t] rest IH]; simpl; intros ms.
  - intros [= <-] _. constructor.
  - destruct (map_use reg t) as [m0 | e0] eqn:Hu; [| discriminate].
    destruct (map_params reg rest) as [ms' | e']; [| discriminate].
    intros [= <-] Hid. apply Forall_cons in Hid as [Hx Hrest].
    simpl. constructor; [| apply IH; [reflexivity | exact Hrest]].
    apply plain_identifier in Hx. unfold convert_argument. simpl in *.
    destruct (conversion m0) eqn:Hc; simpl; [| exact Hx].
    apply plain_app; [apply plain_literal; reflexivity |].
    apply plain_app; [eapply cast_text_plain; [eapply map_use_type, Hu | exact Hc] |].
    apply plain_app; [apply plain_literal; reflexivity | exact Hx].
Qed.

Lemma call_plain f args :
  plain f -> Forall plain (map render_expr args) -> plain (render_expr (ECall f args)).
Proof.
  intros Hf Hargs. simpl. apply plain_app; [exact Hf |].
  apply plain_app; [apply plain_literal; reflexivity |].
  apply plain_app; [apply plain_concat, Hargs | apply plain_literal; reflexivity].
Qed.



(** *** Reports *)

Lemma report_units outs ctx : units (report outs ctx) = omap bound_unit outs.
Proof. reflexivity. Qed.

Lemma report_diagnostics outs ctx : diagnostics (report outs ctx) = omap rejection outs.
Proof. reflexivity. Qed.

Lemma report_generated outs ctx :
  generated (report outs ctx) = String.concat "" (map unit_text (omap bound_unit outs)).
Proof. reflexivity. Qed.

Lemma omap_rejection_cons d outs :
  omap rejection (Rejected d :: outs) = d :: omap rejection outs.
Proof. reflexivity. Qed.

Lemma report_exit outs ctx :
  exit_status (report outs ctx) = Failure <-> diagnostics (report outs ctx) <> [].
Proof.
  simpl. induction outs as [| [u | d] rest IH]; simpl.
  - split; [discriminate | intros H; destruct H; reflexivity].
  - exact IH.
  - split; [discriminate | reflexivity].
Qed.

Lemma report_count outs ctx :
  length (units (report outs ctx)) + length (diagnostics (report outs ctx)) = length outs.
Proof.
  simpl. unfold omap. induction outs as [| [u | d] rest IH]; simpl; lia.
Qed.

Lemma all_bound_units outs :
  omap rejection outs = [] -> length (omap bound_unit outs) = length outs.
Proof.
  unfold omap. induction outs as [| [u | d] rest IH]; simpl; [reflexivity | | discriminate].
  intros H. rewrite IH by exact H. reflexivity.
Qed.

Lemma string_app_nil_r (x : string) : (x ++ "")%string = x.
Proof.
  induction x as [| c x IH]; [reflexivity |].
  change (String c (x ++ "")%string = String c x). rewrite IH. reflexivity.
Qed.

Lemma string_app_assoc (x y z : string) : ((x ++ y) ++ z = x ++ (y ++ z))%string.
Proof.
  induction x as [| c x IH]; [reflexivity |].
  change (String c ((x ++ y) ++ z)%string = String c (x ++ (y ++ z))%string).
  rewrite IH. reflexivity.
Qed.

Lemma concat_texts_app (l1 l2 : list string) :
  String.concat "" (l1 ++ l2) = (String.concat "" l1 ++ String.concat "" l2)%string.
Proof.
  induction l1 as [| x l1 IH]; simpl; [reflexivity |].
  destruct l1 as [| y l1]; simpl in *.
  - destruct l2; simpl; [rewrite string_app_nil_r; reflexivity | reflexivity].
  - rewrite IH. rewrite string_app_assoc. reflexivity.
Qed.

Lemma concat_texts_cons (x : string) (l : list string) :
  String.concat "" (x :: l) = (x ++ String.concat "" l)%string.
Proof. apply (concat_texts_app [x] l). Qed.

Lemma outcomes_bound_emitted prefix ctx ps u :
  Bound u ∈ outcomes prefix ctx ps -> unit_status u = Emitted.
Proof.
  revert ctx. induction ps as [| p rest IH]; intros ctx; simpl.
  - intros H. apply elem_of_nil in H. destruct H.
  - intros H. apply elem_of_cons in H as [H | H]; [| eapply IH, H].
    unfold process in H. destruct (parsed_decl p) as [d |]; [| discriminate].
    destruct (unit_status (emit prefix ctx d)) eqn:E; [| discriminate].
    simpl in H. injection H as ->. exact E.
Qed.

(** C5.  Exit status of a run.  The status is failure if and only if the
    diagnostics report is not empty; every statement of the header left
    one BindingUnit or one diagnostic (the run did not stop early); the
    units are those of the declarations that succeeded, in order, all with
    the status of success, and the generated source is their texts one
    after the other, so that the text of each declaration that succeeded
    is in the output whether or not others failed. *)
Theorem exit_status_iff_diagnostic prefix known text :
  let r := generate prefix known text in
  let outs := outcomes prefix (MkContext known ∅) (parse_header text) in
  (exit_status r = Failure <-> diagnostics r <> []) /\
  length (units r) + length (diagnostics r) = length (parse_header text) /\
  units r = omap bound_unit outs /\
  diagnostics r = omap rejection outs /\
  Forall (fun u => unit_status u = Emitted) (units r) /\
  generated r = String.concat "" (map unit_text (units r)) /\
  (forall u, Bound u ∈ outs ->
     exists before after, generated r = (before ++ unit_text u ++ after)%string).
Proof.
  intros r outs. unfold r, generate. rewrite run_statements_spec. fold outs.
  split; [apply report_exit |].
  split; [rewrite report_count; apply outcomes_length |].
  split; [reflexivity |]. split; [reflexivity |].
  split.
  { apply Forall_forall. intros u Hu. simpl in Hu.
    apply list_elem_of_omap in Hu as (o & Ho & Hb).
    destruct o as [u' | d]; [| discriminate]. injection Hb as ->.
    eapply outcomes_bound_emitted, Ho. }
  split; [reflexivity |].
  intros u Hu. simpl.
  apply list_elem_of_split in Hu as (o1 & o2 & ->).
  rewrite omap_app. simpl. rewrite map_app. simpl.
  rewrite concat_texts_app, concat_texts_cons. eexists _, _. reflexivity.
Qed.

(** *** Failing statements *)

Lemma map_params_untranslatable reg ps :
  existsb (fun p => negb (bool_decide (is_Some (map_type (snd p))))) ps = true ->
  map_params reg ps = Err UnknownTypeError.
Proof.
  induction ps as [| [x t] rest IH]; simpl; [discriminate |].
  intros H. apply orb_true_iff in H as [H | H].
  - assert (Ht : map_type t = None).
    { destruct (map_type t); [| reflexivity].
      rewrite bool_decide_true in H by eauto. discriminate. }
    unfold map_use. rewrite Ht. reflexivity.
  - rewrite (IH H). destruct (map_use reg t) as [m | e] eqn:Hu; [reflexivity |].
    apply map_use_error in Hu as ->. reflexivity.
Qed.

Lemma emit_untranslatable prefix ctx d :
  untranslatable d = true -> unit_status (emit prefix ctx d) = Failed UnknownTypeError.
Proof.
  destruct d as [f ps r | h]; simpl; [| discriminate].
  intros H. unfold build_adapter, map_function.
  apply orb_true_iff in H as [H | H].
  - rewrite (map_params_untranslatable _ _ H). reflexivity.
  - assert (Hr : map_type r = None).
    { destruct (map_type r); [| reflexivity].
      rewrite bool_decide_true in H by eauto. discriminate. }
    destruct (map_params (registry ctx) ps) as [ms | e] eqn:Hps.
    + unfold map_use. rewrite Hr. reflexivity.
    + apply map_params_error in Hps as ->. reflexivity.
Qed.

(** A malformed or untranslatable statement is rejected in every context,
    which it leaves as it was. *)
Lemma process_failing prefix ctx p :
  failing p = true ->
  exists e,
    (e = ParseError \/ e = UnknownTypeError) /\
    process prefix ctx p = (Rejected (MkDiagnostic (parsed_pos p) (parsed_snippet p) e), ctx).
Proof.
  unfold failing, process. destruct (parsed_decl p) as [d |].
  - intros H. rewrite (emit_untranslatable prefix ctx d H).
    exists UnknownTypeError. split; [right |]; reflexivity.
  - intros _. exists ParseError. split; [left |]; reflexivity.
Qed.

(** *** Texts put one after the other *)

Section Texts.

Arguments is_char : simpl never.
Arguments is_newline : simpl never.
Arguments is_sym : simpl never.

Lemma lex_code_shift dl dc p c :
  lex_code (shift dl dc p) c =
    (shift_mode dl dc (fst (lex_code p c)), map (shift_token dl dc) (snd (lex_code p c))).
Proof.
  unfold lex_code.
  destruct (is_word_char c); [reflexivity |].
  destruct (is_char c "/"); [reflexivity |].
  destruct (is_char c "#"); [reflexivity |].
  destruct (is_space c); reflexivity.
Qed.

Ltac shifted c :=
  simpl; rewrite ?map_app, ?app_nil_r, ?app_assoc; unfold shift; simpl;
  destruct (is_newline c); rewrite ?Nat.add_succ_r; reflexivity.

Lemma lex_step_shift dl dc out lx c :
  lex_step (shift_lexer dl dc out lx) c = shift_lexer dl dc out (lex_step lx c).
Proof.
  destruct lx as [m p toks]. unfold lex_step, shift_lexer. simpl.
  destruct m as [| start acc | start | | |]; simpl.
  - rewrite lex_code_shift. destruct (lex_code p c) as [m' e]. shifted c.
  - destruct (is_word_char c); [shifted c |].
    rewrite lex_code_shift. destruct (lex_code p c) as [m' e]. shifted c.
  - destruct (is_char c "*"); [shifted c |].
    destruct (is_char c "/"); [shifted c |].
    rewrite lex_code_shift. destruct (lex_code p c) as [m' e]. shifted c.
  - destruct (is_char c "*"); shifted c.
  - destruct (is_char c "/"); [shifted c |].
    destruct (is_char c "*"); shifted c.
  - unfold shift; simpl. destruct (is_newline c); simpl;
      rewrite ?map_app, ?app_nil_r, ?app_assoc, ?Nat.add_succ_r; reflexivity.
Qed.

Lemma lex_run_shift dl dc out cs lx :
  fold_left lex_step cs (shift_lexer dl dc out lx) =
    shift_lexer dl dc out (fold_left lex_step cs lx).
Proof.
  revert lx. induction cs as [| c cs IH]; intros lx; simpl; [reflexivity |].
  rewrite lex_step_shift. apply IH.
Qed.

Lemma lex_finish_shift dl dc out lx :
  lex_finish (shift_lexer dl dc out lx) = out ++ map (shift_token dl dc) (lex_finish lx).
Proof.
  destruct lx as [m p toks]. unfold lex_finish, shift_lexer. simpl.
  destruct m; simpl; rewrite ?map_app, ?app_assoc; reflexivity.
Qed.

(** The tokenizer counts every character and every line feed. *)
Lemma lex_run_pos cs lx :
  lx_pos (fold_left lex_step cs lx) =
    MkPos (count_newlines cs + pos_line (lx_pos lx)) (length cs + pos_offset (lx_pos lx)).
Proof.
  revert lx. induction cs as [| c cs IH]; intros lx; simpl.
  - destruct (lx_pos lx). reflexivity.
  - rewrite IH. unfold lex_step.
    destruct (match lx_mode lx with Code => _ | _ => _ end) as [m e]. simpl.
    destruct (is_newline c); simpl; f_equal; lia.
Qed.

Lemma lex_state_pos text : lx_pos (lex_state text) = shift_pos text (MkPos 1 0).
Proof. unfold lex_state. rewrite lex_run_pos. reflexivity. Qed.

Lemma lex_state_app t1 t2 :
  lx_mode (lex_state t1) = Code ->
  lex_state (t1 ++ t2)%string =
    shift_lexer (count_newlines (list_ascii_of_string t1))
                (length (list_ascii_of_string t1)) (lx_out (lex_state t1)) (lex_state t2).
Proof.
  intros Hmode. unfold lex_state at 1. rewrite chars_app, fold_left_app.
  fold (lex_state t1).
  assert (Hst : lex_state t1 =
            shift_lexer (count_newlines (list_ascii_of_string t1))
                        (length (list_ascii_of_string t1)) (lx_out (lex_state t1)) lex_start).
  { pose proof (lex_state_pos t1) as Hpos.
    destruct (lex_state t1) as [m p out]. simpl in *. subst m p.
    unfold shift_lexer, shift_pos. simpl. rewrite app_nil_r. reflexivity. }
  rewrite Hst at 1. apply lex_run_shift.
Qed.

(** After a text that leaves the tokenizer between tokens, the tokens of
    what follows are those it has alone, further down. *)
Lemma lex_app t1 t2 :
  lx_mode (lex_state t1) = Code ->
  lex (t1 ++ t2)%string =
    lx_out (lex_state t1) ++
    map (shift_token (count_newlines (list_ascii_of_string t1))
                     (length (list_ascii_of_string t1))) (lex t2).
Proof.
  intros Hmode. unfold lex. fold (lex_state (t1 ++ t2)%string). fold (lex_state t2).
  rewrite (lex_state_app _ _ Hmode). apply lex_finish_shift.
Qed.

Lemma lex_closed text : lx_mode (lex_state text) = Code -> lex text = lx_out (lex_state text).
Proof. intros H. unfold lex. fold (lex_state text). unfold lex_finish. rewrite H. reflexivity. Qed.

Lemma close_statement_shift dl dc cur :
  close_statement (map (shift_token dl dc) cur) =
    map (shift_statement dl dc) (close_statement cur).
Proof.
  destruct cur as [| [p t] cur]; [reflexivity |].
  simpl. unfold shift_statement. simpl. f_equal. f_equal.
  rewrite map_map. reflexivity.
Qed.

Lemma split_statements_shift dl dc toks : forall depth cur,
  split_statements depth (map (shift_token dl dc) cur) (map (shift_token dl dc) toks) =
    map (shift_statement dl dc) (split_statements depth cur toks).
Proof.
  induction toks as [| [p t] rest IH]; intros depth cur; simpl.
  - apply close_statement_shift.
  - change ([(shift dl dc p, t)]) with (map (shift_token dl dc) [(p, t)]).
    rewrite <- map_app.
    destruct (is_sym ";" t && Nat.eqb depth 0).
    + rewrite close_statement_shift, (map_app (shift_statement dl dc)). f_equal.
      apply (IH 0 []).
    + destruct (is_sym "{" t); [apply IH |].
      destruct (is_sym "}" t); apply IH.
Qed.

(** Tokens that leave the splitter between statements: what follows is
    split as it is alone. *)
Lemma split_statements_app toks1 toks2 : forall depth cur depth',
  split_state depth cur toks1 = (depth', []) ->
  split_statements depth cur (toks1 ++ toks2) =
    split_statements depth cur toks1 ++ split_statements depth' [] toks2.
Proof.
  induction toks1 as [| [p t] rest IH]; intros depth cur depth'; simpl.
  - intros [= -> ->]. reflexivity.
  - destruct (is_sym ";" t && Nat.eqb depth 0).
    + intros H. rewrite (IH _ _ _ H), app_assoc. reflexivity.
    + destruct (is_sym "{" t); [apply IH |].
      destruct (is_sym "}" t); apply IH.
Qed.

Lemma closed_inv text :
  closed text = true ->
  lx_mode (lex_state text) = Code /\
  split_state 0 [] (lx_out (lex_state text)) = (0, []).
Proof.
  unfold closed. destruct (lx_mode (lex_state text)); try discriminate.
  destruct (split_state 0 [] (lx_out (lex_state text))) as [[| d] [| x cur]];
    try discriminate.
  intros _. split; reflexivity.
Qed.

Lemma split_state_shift dl dc toks : forall depth cur,
  split_state depth (map (shift_token dl dc) cur) (map (shift_token dl dc) toks) =
    (fst (split_state depth cur toks),
     map (shift_token dl dc) (snd (split_state depth cur toks))).
Proof.
  induction toks as [| [p t] rest IH]; intros depth cur; simpl; [reflexivity |].
  change ([(shift dl dc p, t)]) with (map (shift_token dl dc) [(p, t)]).
  rewrite <- map_app.
  destruct (is_sym ";" t && Nat.eqb depth 0); [apply (IH 0 []) |].
  destruct (is_sym "{" t); [apply IH |].
  destruct (is_sym "}" t); apply IH.
Qed.

Lemma split_state_app toks1 toks2 : forall depth cur,
  split_state depth cur (toks1 ++ toks2) =
    split_state (fst (split_state depth cur toks1)) (snd (split_state depth cur toks1)) toks2.
Proof.
  induction toks1 as [| [p t] rest IH]; intros depth cur; simpl; [reflexivity |].
  destruct (is_sym ";" t && Nat.eqb depth 0); [apply IH |].
  destruct (is_sym "{" t); [apply IH |].
  destruct (is_sym "}" t); apply IH.
Qed.

(** Texts that end where a statement ends, one after the other, end where
    a statement ends: so does a sequence of complete declarations. *)
Lemma closed_app t1 t2 :
  closed t1 = true -> closed t2 = true -> closed (t1 ++ t2)%string = true.
Proof.
  intros H1 H2. apply closed_inv in H1 as [Hm1 Hs1]. apply closed_inv in H2 as [Hm2 Hs2].
  unfold closed. rewrite (lex_state_app _ _ Hm1). simpl. rewrite Hm2. simpl.
  rewrite split_state_app, Hs1. simpl.
  change (@nil (Pos * token)) with
    (map (shift_token (count_newlines (list_ascii_of_string t1))
                      (length (list_ascii_of_string t1))) []) at 1.
  rewrite split_state_shift, Hs2. reflexivity.
Qed.

(** After a text that ends where a statement ends, the statements of what
    follows are those it has alone, further down. *)
Lemma parse_header_app t1 t2 :
  closed t1 = true ->
  parse_header (t1 ++ t2)%string =
    parse_header t1 ++ map (reposition (shift_pos t1)) (parse_header t2).
Proof.
  intros Hc. apply closed_inv in Hc as [Hmode Hsplit].
  unfold parse_header. rewrite (lex_app _ _ Hmode), (lex_closed _ Hmode).
  rewrite (split_statements_app _ _ _ _ _ Hsplit), map_app. f_equal.
  change (@nil (Pos * token)) with
    (map (shift_token (count_newlines (list_ascii_of_string t1))
                      (length (list_ascii_of_string t1))) []) at 1.
  rewrite split_statements_shift, !map_map. reflexivity.
Qed.

End Texts.

Lemma process_reposition f prefix ctx p :
  process prefix ctx (reposition f p) =
    (reposition_outcome f (fst (process prefix ctx p)), snd (process prefix ctx p)).
Proof.
  unfold process, reposition. simpl.
  destruct (parsed_decl p) as [d |]; [| reflexivity].
  destruct (unit_status (emit prefix ctx d)); reflexivity.
Qed.

Lemma context_after_reposition f prefix ps : forall ctx,
  context_after prefix ctx (map (reposition f) ps) = context_after prefix ctx ps.
Proof.
  induction ps as [| p rest IH]; intros ctx; simpl; [reflexivity |].
  rewrite process_reposition. simpl. apply IH.
Qed.

Lemma outcomes_reposition f prefix ps : forall ctx,
  outcomes prefix ctx (map (reposition f) ps) =
    map (reposition_outcome f) (outcomes prefix ctx ps).
Proof.
  induction ps as [| p rest IH]; intros ctx; simpl; [reflexivity |].
  rewrite process_reposition. simpl. rewrite IH. reflexivity.
Qed.

Lemma bound_units_reposition f outs :
  omap bound_unit (map (reposition_outcome f) outs) = omap bound_unit outs.
Proof.
  unfold omap. induction outs as [| [u | d] rest IH]; simpl; [reflexivity | |]; rewrite IH; reflexivity.
Qed.

Lemma rejections_reposition f outs :
  omap rejection (map (reposition_outcome f) outs) = [] <-> omap rejection outs = [].
Proof.
  unfold omap. induction outs as [| [u | d] rest IH]; simpl; [reflexivity | exact IH |].
  split; discriminate.
Qed.

(** Where the statements after the first ones stand in the text changes
    neither the units nor whether there is a diagnostic. *)
Lemma run_statements_reposition f prefix known pre post :
  units (run_statements prefix known (pre ++ map (reposition f) post)) =
    units (run_statements prefix known (pre ++ post)) /\
  (diagnostics (run_statements prefix known (pre ++ map (reposition f) post)) = [] <->
   diagnostics (run_statements prefix known (pre ++ post)) = []).
Proof.
  rewrite !run_statements_spec, !report_units, !report_diagnostics.
  rewrite !outcomes_app, !omap_app, outcomes_reposition.
  rewrite bound_units_reposition. split; [reflexivity |].
  split; intros H; apply app_eq_nil in H as [H1 H2]; rewrite H1; simpl;
    apply (rejections_reposition f); exact H2.
Qed.

Lemma count_newlines_app cs1 cs2 :
  count_newlines (cs1 ++ cs2) = count_newlines cs1 + count_newlines cs2.
Proof. induction cs1 as [| c cs1 IH]; simpl; [reflexivity |]. rewrite IH. lia. Qed.

Lemma shift_pos_app t1 t2 q :
  shift_pos t1 (shift_pos t2 q) = shift_pos (t1 ++ t2)%string q.
Proof.
  unfold shift_pos, shift. simpl.
  rewrite chars_app, count_newlines_app, length_app. f_equal; lia.
Qed.

(** One failing statement among statements that run clean without it:
    one diagnostic, at its position, and the units of the others. *)
Lemma fail_soft_statements prefix known pre bad post :
  failing bad = true ->
  diagnostics (run_statements prefix known (pre ++ post)) = [] ->
  let r := run_statements prefix known (pre ++ bad :: post) in
  (exists e, (e = ParseError \/ e = UnknownTypeError) /\
     diagnostics r = [MkDiagnostic (parsed_pos bad) (parsed_snippet bad) e]) /\
  units r = units (run_statements prefix known (pre ++ post)) /\
  length (units r) = length pre + length post /\
  generated r = generated (run_statements prefix known (pre ++ post)).
Proof.
  intros Hbad Hclean r. unfold r.
  rewrite run_statements_spec in Hclean. rewrite !run_statements_spec.
  set (ctx0 := MkContext known ∅) in *.
  destruct (process_failing prefix (context_after prefix ctx0 pre) bad Hbad)
    as (e & He & Hp).
  assert (Houts : outcomes prefix ctx0 (pre ++ bad :: post) =
            outcomes prefix ctx0 pre ++
            Rejected (MkDiagnostic (parsed_pos bad) (parsed_snippet bad) e) ::
            outcomes prefix (context_after prefix ctx0 pre) post).
  { rewrite outcomes_app. simpl. rewrite Hp. reflexivity. }
  rewrite report_diagnostics, outcomes_app, omap_app in Hclean.
  apply app_eq_nil in Hclean as [Hpre Hpost].
  assert (Hunits : omap bound_unit (outcomes prefix ctx0 (pre ++ bad :: post)) =
            omap bound_unit (outcomes prefix ctx0 (pre ++ post))).
  { rewrite Houts, outcomes_app, !omap_app. reflexivity. }
  split; [| split; [| split]].
  - exists e. split; [exact He |].
    rewrite report_diagnostics, Houts, omap_app, omap_rejection_cons, Hpre, Hpost.
    reflexivity.
  - rewrite !report_units. exact Hunits.
  - rewrite report_units, Hunits, outcomes_app, omap_app, length_app.
    rewrite !all_bound_units by assumption. rewrite !outcomes_length. reflexivity.
  - rewrite !report_generated, Hunits. reflexivity.
Qed.

(** The statements of a header in which the declaration [bad] stands
    after the text [before], both ending where a statement ends. *)
Lemma parse_header_around before bad after p :
  closed before = true ->
  closed bad = true ->
  parse_header bad = [p] ->
  parse_header (before ++ bad ++ after)%string =
    parse_header before ++
    reposition (shift_pos before) p ::
    map (reposition (shift_pos (before ++ bad)%string)) (parse_header after).
Proof.
  intros Hb Hbad Hp.
  rewrite (parse_header_app before _ Hb), (parse_header_app bad _ Hbad), Hp.
  simpl. f_equal. f_equal. rewrite map_map. apply map_ext. intros q.
  unfold reposition. simpl. rewrite shift_pos_app. reflexivity.
Qed.




(** *** Exchanging independent declarations *)

Lemma map_use_register reg h t :
  mentions h t = false -> map_use ({[ h ]} ∪ reg) t = map_use reg t.
Proof.
  destruct t as [w sg | t' | h' | t']; unfold map_use; simpl.
  - intros _. destruct (w =? 32)%N; reflexivity.
  - reflexivity.
  - intros Hne. apply decide_ext.
    assert (Hh : h <> h') by (intros ->; rewrite String.eqb_refl in Hne; discriminate).
    rewrite elem_of_union, elem_of_singleton.
    split; [intros [E | Hin]; [congruence | exact Hin] | intros Hin; right; exact Hin].
  - intros _. destruct t' as [| [w sg | | |] | |]; try reflexivity.
    destruct (w =? 8)%N; reflexivity.
Qed.

Lemma map_params_register reg h ps :
  existsb (fun p => mentions h (snd p)) ps = false ->
  map_params ({[ h ]} ∪ reg) ps = map_params reg ps.
Proof.
  induction ps as [| [x t] rest IH]; simpl; [reflexivity |].
  intros H. apply orb_false_iff in H as [Ht Hrest].
  rewrite (map_use_register _ _ _ Ht), (IH Hrest). reflexivity.
Qed.

Lemma adapter_name_inj prefix f g : adapter_name prefix f = adapter_name prefix g -> f = g.
Proof.
  unfold adapter_name. intros H.
  apply (inj (String.append prefix)) in H. apply (inj (String.append "_")) in H. exact H.
Qed.

Lemma emit_register prefix ctx d1 d2 :
  independent_decl d1 d2 = true ->
  emit prefix (register prefix d1 ctx) d2 = emit prefix ctx d2.
Proof.
  destruct d1 as [f ps r | h], d2 as [g qs q | k]; simpl; try reflexivity.
  - intros Hne. apply negb_true_iff in Hne.
    assert (f <> g) by (intros ->; rewrite String.eqb_refl in Hne; discriminate).
    unfold build_adapter. simpl.
    destruct (map_function (registry ctx) g qs q) as [md | e]; [| reflexivity].
    rewrite (decide_ext (adapter_name prefix g ∈ {[adapter_name prefix f]} ∪ symbols ctx)
                        (adapter_name prefix g ∈ symbols ctx)); [reflexivity |].
    split; [| intros Hin; apply elem_of_union; right; exact Hin].
    intros Hin. apply elem_of_union in Hin as [Hin | Hin]; [| exact Hin].
    apply elem_of_singleton in Hin. apply adapter_name_inj in Hin. congruence.
  - intros Hu. apply negb_true_iff in Hu. unfold uses_handle in Hu.
    apply orb_false_iff in Hu as [Hps Hr].
    unfold build_adapter, map_function. simpl.
    rewrite (map_params_register _ _ _ Hps), (map_use_register _ _ _ Hr). reflexivity.
Qed.

Lemma union_swap (X Y Z : gset string) : X ∪ (Y ∪ Z) = Y ∪ (X ∪ Z).
Proof. rewrite !(assoc_L (∪)), (comm_L (∪) X Y). reflexivity. Qed.

Lemma register_comm prefix d1 d2 ctx :
  register prefix d1 (register prefix d2 ctx) = register prefix d2 (register prefix d1 ctx).
Proof.
  destruct d1, d2; simpl; f_equal; try reflexivity; apply union_swap.
Qed.

Lemma independent_decl_sym d1 d2 : independent_decl d1 d2 = independent_decl d2 d1.
Proof.
  destruct d1, d2; simpl; try reflexivity. rewrite String.eqb_sym. reflexivity.
Qed.

(** What processing a statement may do to a context. *)
Lemma process_context prefix ctx p :
  snd (process prefix ctx p) = ctx \/
  exists d, parsed_decl p = Some d /\ snd (process prefix ctx p) = register prefix d ctx.
Proof.
  unfold process. destruct (parsed_decl p) as [d |]; [| left; reflexivity].
  destruct (unit_status (emit prefix ctx d)); [right; exists d; split |left]; reflexivity.
Qed.

(** The result of a statement in two contexts in which its declaration
    emits the same unit. *)
Lemma process_same_emit prefix ctx ctx' p :
  (forall d, parsed_decl p = Some d -> emit prefix ctx d = emit prefix ctx' d) ->
  fst (process prefix ctx p) = fst (process prefix ctx' p) /\
  (snd (process prefix ctx p) = ctx /\ snd (process prefix ctx' p) = ctx' \/
   exists d, parsed_decl p = Some d /\
     snd (process prefix ctx p) = register prefix d ctx /\
     snd (process prefix ctx' p) = register prefix d ctx').
Proof.
  unfold process. destruct (parsed_decl p) as [d |].
  - intros H. rewrite <- (H d eq_refl).
    destruct (unit_status (emit prefix ctx d)); simpl.
    + split; [reflexivity |]. right. exists d. repeat split.
    + split; [reflexivity |]. left. split; reflexivity.
  - intros _. simpl. split; [reflexivity |]. left. split; reflexivity.
Qed.

Lemma emit_after_independent prefix ctx p q d :
  independent p q = true -> parsed_decl q = Some d ->
  emit prefix (snd (process prefix ctx p)) d = emit prefix ctx d.
Proof.
  intros Hi Hq. destruct (process_context prefix ctx p) as [-> | (dp & Hp & ->)]; [reflexivity |].
  apply emit_register. unfold independent in Hi. rewrite Hp, Hq in Hi. exact Hi.
Qed.

Lemma independent_sym p q : independent p q = independent q p.
Proof.
  unfold independent. destruct (parsed_decl p), (parsed_decl q); try reflexivity.
  apply independent_decl_sym.
Qed.

(** Two independent statements, processed in either order, get the same
    results and leave the same context. *)
Lemma process_swap prefix ctx p q :
  independent p q = true ->
  fst (process prefix (snd (process prefix ctx p)) q) = fst (process prefix ctx q) /\
  fst (process prefix (snd (process prefix ctx q)) p) = fst (process prefix ctx p) /\
  snd (process prefix (snd (process prefix ctx p)) q) =
    snd (process prefix (snd (process prefix ctx q)) p).
Proof.
  intros Hi. assert (Hi' : independent q p = true) by (rewrite independent_sym; exact Hi).
  destruct (process_same_emit prefix (snd (process prefix ctx p)) ctx q) as [Hq Hcq].
  { intros d Hd. eapply emit_after_independent; eassumption. }
  destruct (process_same_emit prefix (snd (process prefix ctx q)) ctx p) as [Hp Hcp].
  { intros d Hd. eapply emit_after_independent; eassumption. }
  split; [exact Hq |]. split; [exact Hp |].
  destruct Hcq as [[Hq1 Hq2] | (dq & Hdq & Hq1 & Hq2)];
    destruct Hcp as [[Hp1 Hp2] | (dp & Hdp & Hp1 & Hp2)];
    rewrite Hq1, Hp1.
  - rewrite Hp2, Hq2. reflexivity.
  - rewrite Hq2, Hp2. reflexivity.
  - rewrite Hp2, Hq2. reflexivity.
  - rewrite Hp2, Hq2. apply register_comm.
Qed.

(** *** Reordered runs *)

Lemma run_items_cons prefix ctx i p rest :
  run_items prefix ctx ((i, p) :: rest) =
    ((i, fst (process prefix ctx p)) ::
       fst (run_items prefix (snd (process prefix ctx p)) rest),
     snd (run_items prefix (snd (process prefix ctx p)) rest)).
Proof.
  simpl. destruct (process prefix ctx p) as [o ctx1]. simpl.
  destruct (run_items prefix ctx1 rest) as [os ctx2]. reflexivity.
Qed.

Lemma run_items_app prefix ctx l1 l2 :
  run_items prefix ctx (l1 ++ l2) =
    (fst (run_items prefix ctx l1) ++
       fst (run_items prefix (snd (run_items prefix ctx l1)) l2),
     snd (run_items prefix (snd (run_items prefix ctx l1)) l2)).
Proof.
  revert ctx. induction l1 as [| [i p] rest IH]; intros ctx.
  - simpl. destruct (run_items prefix ctx l2). reflexivity.
  - rewrite <- app_comm_cons, !run_items_cons, IH. reflexivity.
Qed.

Lemma run_items_indices prefix ctx items :
  map fst (fst (run_items prefix ctx items)) = map fst items.
Proof. rewrite run_items_spec. simpl. apply fst_zip. rewrite outcomes_length, !length_map. lia. Qed.

(** Exchanging two independent neighbours exchanges their results and
    changes nothing else. *)
Lemma run_items_swap prefix ctx l1 a b l2 :
  independent (snd a) (snd b) = true ->
  fst (run_items prefix ctx (l1 ++ b :: a :: l2)) ≡ₚ
    fst (run_items prefix ctx (l1 ++ a :: b :: l2)) /\
  snd (run_items prefix ctx (l1 ++ b :: a :: l2)) =
    snd (run_items prefix ctx (l1 ++ a :: b :: l2)).
Proof.
  intros Hi. destruct a as [i p], b as [j q]. simpl in Hi.
  rewrite !run_items_app. cbn [fst snd].
  set (c := snd (run_items prefix ctx l1)).
  rewrite !run_items_cons. cbn [fst snd].
  destruct (process_swap prefix c p q Hi) as (Hq & Hp & Hc).
  rewrite Hq, Hp, Hc. split; [| reflexivity].
  apply Permutation_app_head, perm_swap.
Qed.

Lemma reordering_results prefix ctx source order :
  Reordering source order ->
  fst (run_items prefix ctx order) ≡ₚ fst (run_items prefix ctx source) /\
  snd (run_items prefix ctx order) = snd (run_items prefix ctx source).
Proof.
  induction 1 as [| l1 a b l2 _ [IHp IHc] Hi]; [split; reflexivity |].
  destruct (run_items_swap prefix ctx l1 a b l2 Hi) as [Hp Hc].
  split; [rewrite Hp; exact IHp | rewrite Hc; exact IHc].
Qed.

(** Whatever the order the independent declarations of a header are
    processed in, the run reports what the run in source order reports. *)
Lemma run_in_order_reordering prefix known ps order :
  Reordering (source_order ps) order ->
  run_in_order prefix known order = run_statements prefix known ps.
Proof.
  intros Hr. unfold run_statements, run_in_order.
  destruct (reordering_results prefix (MkContext known ∅) _ _ Hr) as [Hp Hc].
  pose proof (run_items_indices prefix (MkContext known ∅) (source_order ps)) as Hidx.
  destruct (run_items prefix (MkContext known ∅) order) as [outs ctx].
  destruct (run_items prefix (MkContext known ∅) (source_order ps)) as [outs' ctx'].
  simpl in *. subst ctx'. f_equal. unfold collect. f_equal.
  apply merge_sort_index_unique; [exact Hp |].
  rewrite Hidx, source_order_fst. apply NoDup_seq.
Qed.

Lemma map_function_typings reg f ps r md :
  map_function reg f ps r = Ok md ->
  Forall (fun tm => map_type (fst tm) = Some (snd tm)) (typings md).
Proof.
  intros H. apply map_function_inv in H as (ms & m & -> & Hps & Hr).
  unfold typings. simpl. constructor; [eapply map_use_type, Hr |].
  apply Forall_forall. intros [t mt] Hin.
  apply list_elem_of_fmap in Hin as ([[x t'] m'] & [= -> ->] & Hin).
  apply list_elem_of_lookup in Hin as [i Hi].
  destruct (map_params_lookup _ _ _ Hps) as [Hlen Hl].
  assert (Hlt : i < length ps) by (rewrite <- Hlen; eapply lookup_lt_Some, Hi).
  apply lookup_lt_is_Some in Hlt as [[x0 t0] Hp0].
  destruct (Hl i x0 t0 Hp0) as (m0 & Hm0 & Hu). rewrite Hi in Hm0.
  injection Hm0 as <- <- <-. simpl. eapply map_use_type, Hu.
Qed.

(** C6.  Determinism of the generator.  Two runs on the same header text
    (same prefix, same registrations to start from), whatever order each
    processes the independent declarations in, return the same report: the
    same generated text, character for character, the same units and
    diagnostics.  And a CType has one mapping: wherever a type stands in
    declarations the Mapper has mapped, in whatever state of the registry,
    equal types carry equal TypeMappings. *)
Theorem generator_deterministic prefix known text out1 out2 :
  Generates prefix known text out1 ->
  Generates prefix known text out2 ->
  out1 = out2 /\
  generated out1 = generated (generate prefix known text) /\
  (forall reg1 reg2 f1 ps1 r1 f2 ps2 r2 md1 md2 t m1 m2,
     map_function reg1 f1 ps1 r1 = Ok md1 ->
     map_function reg2 f2 ps2 r2 = Ok md2 ->
     (t, m1) ∈ typings md1 -> (t, m2) ∈ typings md2 -> m1 = m2).
Proof.
  intros (o1 & Hr1 & ->) (o2 & Hr2 & ->).
  rewrite (run_in_order_reordering _ _ _ _ Hr1), (run_in_order_reordering _ _ _ _ Hr2).
  split; [reflexivity |]. split; [reflexivity |].
  intros reg1 reg2 f1 ps1 r1 f2 ps2 r2 md1 md2 t m1 m2 H1 H2 Hin1 Hin2.
  apply map_function_typings in H1, H2.
  rewrite Forall_forall in H1, H2.
  specialize (H1 _ Hin1). specialize (H2 _ Hin2). simpl in *. congruence.
Qed.

Lemma mixed_api_reordering :
  Reordering (source_order (parse_header mixed_api_h)) mixed_api_reordered.
Proof.
  unfold mixed_api_reordered. apply reorder_swap.
  - assert (E : take 2 mixed_api_items ++
                default (0, nothing_parsed) (mixed_api_items !! 2) ::
                default (0, nothing_parsed) (mixed_api_items !! 3) ::
                drop 4 mixed_api_items = mixed_api_items)
      by (vm_compute; reflexivity).
    rewrite E. unfold mixed_api_items. constructor.
  - vm_compute. reflexivity.
Qed.

Lemma generator_deterministic_witness :
  run_in_order "lean_mixed_api" ∅ mixed_api_reordered =
    generate "lean_mixed_api" ∅ mixed_api_h /\
  generated (run_in_order "lean_mixed_api" ∅ mixed_api_reordered) =
    generated (generate "lean_mixed_api" ∅ mixed_api_h).
Proof.
  assert (G1 : Generates "lean_mixed_api" ∅ mixed_api_h
                 (run_in_order "lean_mixed_api" ∅ mixed_api_reordered)).
  { exists mixed_api_reordered. split; [exact mixed_api_reordering | reflexivity]. }
  assert (G2 : Generates "lean_mixed_api" ∅ mixed_api_h
                 (generate "lean_mixed_api" ∅ mixed_api_h)).
  { exists (source_order (parse_header mixed_api_h)).
    split; [apply reorder_source |]. unfold generate, run_statements. reflexivity. }
  pose proof (generator_deterministic _ _ _ _ _ G1 G2) as (H1 & H2 & _).
  exact (conj H1 H2).
Defined.

(** *** Source order in the parser *)

Local Arguments is_char : simpl never.
Local Arguments is_newline : simpl never.
Local Arguments is_sym : simpl never.

Global Instance pos_before_trans : Transitive pos_before.
Proof. intros a b c. unfold pos_before. lia. Qed.

Lemma StronglySorted_sublist {A} (R : relation A) (l1 l2 : list A) :
  l1 `sublist_of` l2 -> StronglySorted R l2 -> StronglySorted R l1.
Proof.
  induction 1 as [| x l1 l2 Hs IH | x l1 l2 Hs IH]; intros Hl2.
  - constructor.
  - apply StronglySorted_cons in Hl2 as [Hx Hl2].
    apply StronglySorted_cons. split; [| apply IH, Hl2].
    rewrite Forall_forall in *. intros y Hy. apply Hx.
    eapply elem_of_sublist; eassumption.
  - apply StronglySorted_cons in Hl2 as [_ Hl2]. apply IH, Hl2.
Qed.

Lemma ordered_snoc (out : list (Pos * token)) q t :
  StronglySorted pos_before (map fst out) ->
  Forall (fun x => pos_before (fst x) q) out ->
  StronglySorted pos_before (map fst (out ++ [(q, t)])).
Proof.
  intros Hs Hq. rewrite map_app. apply StronglySorted_app_2.
  - intros x1 x2 H1 H2. apply list_elem_of_fmap in H1 as (x & -> & Hx).
    simpl in H2. apply list_elem_of_singleton in H2 as ->.
    rewrite Forall_forall in Hq. apply Hq, Hx.
  - exact Hs.
  - simpl. repeat constructor.
Qed.

Lemma before_later (out : list (Pos * token)) a b :
  Forall (fun x => pos_before (fst x) a) out -> pos_before a b ->
  Forall (fun x => pos_before (fst x) b) out.
Proof.
  intros H Hab. eapply Forall_impl; [exact H |].
  intros x Hx. simpl in *. etransitivity; eassumption.
Qed.

Lemma before_snoc (out : list (Pos * token)) q t b :
  Forall (fun x => pos_before (fst x) q) out -> pos_before q b ->
  Forall (fun x => pos_before (fst x) b) (out ++ [(q, t)]).
Proof.
  intros H Hq. apply Forall_app. split; [eapply before_later; eassumption |].
  constructor; [exact Hq | constructor].
Qed.

(** A character met between tokens, after tokens that all lie before it. *)
Lemma lex_code_ordered out p p' c :
  StronglySorted pos_before (map fst out) ->
  Forall (fun x => pos_before (fst x) p) out ->
  pos_before p p' ->
  lexer_ordered (Lexer (fst (lex_code p c)) p' (out ++ snd (lex_code p c))).
Proof.
  intros Hs Hb Hp. unfold lex_code, lexer_ordered.
  destruct (is_word_char c); [| destruct (is_char c "/"); [| destruct (is_char c "#");
    [| destruct (is_space c)]]]; simpl; rewrite ?app_nil_r.
  - split; [exact Hs | split; assumption].
  - split; [exact Hs | split; assumption].
  - split; [exact Hs | eapply before_later; eassumption].
  - split; [exact Hs | eapply before_later; eassumption].
  - split; [apply ordered_snoc; assumption | apply before_snoc; assumption].
Qed.

Lemma lex_step_ordered lx c : lexer_ordered lx -> lexer_ordered (lex_step lx c).
Proof.
  destruct lx as [mode p out]. unfold lex_step. simpl.
  set (p' := MkPos (if is_newline c then S (pos_line p) else pos_line p) (S (pos_offset p))).
  assert (Hp : pos_before p p').
  { unfold pos_before, p'. simpl. destruct (is_newline c); lia. }
  assert (Hcode : forall out0,
    StronglySorted pos_before (map fst out0) ->
    Forall (fun x => pos_before (fst x) p) out0 ->
    lexer_ordered (let '(mode0, emitted) := lex_code p c in Lexer mode0 p' (out0 ++ emitted))).
  { intros out0 H1 H2. pose proof (lex_code_ordered out0 p p' c H1 H2 Hp) as H.
    destruct (lex_code p c). exact H. }
  assert (Hflush : forall start t,
    StronglySorted pos_before (map fst out) ->
    Forall (fun x => pos_before (fst x) start) out -> pos_before start p ->
    lexer_ordered (let '(mode0, emitted) :=
                     let '(mode1, toks) := lex_code p c in (mode1, (start, t) :: toks) in
                   Lexer mode0 p' (out ++ emitted))).
  { intros start t H1 H2 H3.
    pose proof (Hcode (out ++ [(start, t)]) (ordered_snoc _ _ _ H1 H2)
                  (before_snoc _ _ t _ H2 H3)) as H.
    destruct (lex_code p c) as [m toks]. rewrite <- app_assoc in H. exact H. }
  unfold lexer_ordered at 1. simpl.
  destruct mode as [| start acc | start | | |]; simpl.
  - intros [Hs Hb]. apply Hcode; assumption.
  - intros (Hs & Hb & Hst). destruct (is_word_char c).
    + unfold lexer_ordered. simpl. rewrite app_nil_r.
      split; [exact Hs |]. split; [exact Hb | etransitivity; eassumption].
    + apply Hflush; assumption.
  - intros (Hs & Hb & Hst).
    assert (Hb' : Forall (fun x => pos_before (fst x) p') out).
    { eapply before_later; [exact Hb | etransitivity; eassumption]. }
    destruct (is_char c "*"); [| destruct (is_char c "/")].
    + unfold lexer_ordered. simpl. rewrite app_nil_r. split; assumption.
    + unfold lexer_ordered. simpl. rewrite app_nil_r. split; assumption.
    + apply Hflush; assumption.
  - intros [Hs Hb]. destruct (is_char c "*");
      unfold lexer_ordered; simpl; rewrite app_nil_r;
      (split; [exact Hs | eapply before_later; eassumption]).
  - intros [Hs Hb]. destruct (is_char c "/"); [| destruct (is_char c "*")];
      unfold lexer_ordered; simpl; rewrite app_nil_r;
      (split; [exact Hs | eapply before_later; eassumption]).
  - intros [Hs Hb]. destruct (is_newline c);
      unfold lexer_ordered; simpl; rewrite app_nil_r;
      (split; [exact Hs | eapply before_later; eassumption]).
Qed.

Lemma lex_fold_ordered cs lx :
  lexer_ordered lx -> lexer_ordered (fold_left lex_step cs lx).
Proof.
  revert lx. induction cs as [| c cs IH]; intros lx H; simpl; [exact H |].
  apply IH, lex_step_ordered, H.
Qed.

(** The tokens of a header come out in source order. *)
Lemma lex_ordered text : StronglySorted pos_before (map fst (lex text)).
Proof.
  unfold lex.
  assert (H : lexer_ordered (fold_left lex_step (list_ascii_of_string text) lex_start)).
  { apply lex_fold_ordered. unfold lexer_ordered, lex_start. simpl. split; constructor. }
  destruct (fold_left lex_step (list_ascii_of_string text) lex_start) as [mode p out].
  unfold lexer_ordered in H. unfold lex_finish. simpl in *.
  destruct mode; simpl in *; destruct H as [Hs H]; try exact Hs.
  - apply ordered_snoc; [exact Hs | apply H].
  - apply ordered_snoc; [exact Hs | apply H].
Qed.

Lemma close_statement_sublist cur :
  map stmt_pos (close_statement cur) `sublist_of` map fst cur.
Proof.
  destruct cur as [| [p t] rest]; simpl; [constructor |].
  apply sublist_skip, sublist_nil_l.
Qed.

(** The statements begin at tokens of the header, in the order of the
    tokens. *)
Lemma split_statements_sublist depth cur toks :
  map stmt_pos (split_statements depth cur toks) `sublist_of` map fst (cur ++ toks).
Proof.
  revert depth cur. induction toks as [| [p t] rest IH]; intros depth cur; simpl.
  - rewrite app_nil_r. apply close_statement_sublist.
  - replace (cur ++ (p, t) :: rest) with ((cur ++ [(p, t)]) ++ rest)
      by (rewrite <- app_assoc; reflexivity).
    destruct (is_sym ";" t && Nat.eqb depth 0).
    + rewrite !map_app. apply sublist_app; [| apply (IH 0 [])].
      rewrite <- map_app. apply close_statement_sublist.
    + destruct (is_sym "{" t); [apply IH |]. destruct (is_sym "}" t); apply IH.
Qed.

Lemma declarations_sublist ps :
  map fst (declarations ps) `sublist_of` map parsed_pos ps.
Proof.
  unfold declarations. induction ps as [| p rest IH]; [constructor |].
  change (omap ?f (p :: rest)) with
    (match f p with Some y => y :: omap f rest | None => omap f rest end).
  simpl. destruct (parsed_decl p); simpl; [apply sublist_skip | apply sublist_cons]; exact IH.
Qed.

(** The parser's declarations are in source order. *)
Lemma declarations_ordered text :
  StronglySorted pos_before (map fst (declarations (parse_header text))).
Proof.
  eapply StronglySorted_sublist; [| apply (lex_ordered text)].
  etransitivity; [apply declarations_sublist |].
  unfold parse_header. rewrite map_map. simpl.
  apply (split_statements_sublist 0 [] (lex text)).
Qed.

(** *** Source order in the output *)

Lemma emit_symbol prefix ctx d : unit_symbol (emit prefix ctx d) = decl_name d.
Proof.
  destruct d as [f ps r | h]; simpl; [| reflexivity].
  destruct (build_adapter prefix ctx f ps r); reflexivity.
Qed.

Lemma declarations_cons p rest :
  declarations (p :: rest) =
    match parsed_decl p with
    | Some d => (parsed_pos p, d) :: declarations rest
    | None => declarations rest
    end.
Proof. unfold declarations. cbn. destruct (parsed_decl p); reflexivity. Qed.

Lemma bound_units_cons o outs :
  omap bound_unit (o :: outs) =
    match o with
    | Bound u => u :: omap bound_unit outs
    | Rejected _ => omap bound_unit outs
    end.
Proof. destruct o; reflexivity. Qed.

(** The units follow the declarations: their symbols are the names of
    declarations, in the order of the declarations. *)
Lemma units_follow_declarations prefix ctx ps :
  map unit_symbol (omap bound_unit (outcomes prefix ctx ps)) `sublist_of`
    map (fun d => decl_name (snd d)) (declarations ps).
Proof.
  revert ctx. induction ps as [| p rest IH]; intros ctx; [constructor |].
  rewrite declarations_cons.
  change (outcomes prefix ctx (p :: rest)) with
    (fst (process prefix ctx p) :: outcomes prefix (snd (process prefix ctx p)) rest).
  rewrite bound_units_cons. unfold process.
  destruct (parsed_decl p) as [d |]; [| apply IH].
  destruct (unit_status (emit prefix ctx d)); cbn [fst snd map].
  - rewrite emit_symbol. apply sublist_skip, IH.
  - apply sublist_cons, IH.
Qed.

(** C7.  Source order.  The Declarations the parser returns are in source
    order (each begins strictly later in the text than the one before, on
    no earlier line).  Whatever order the independent declarations are
    processed in, the run reports what the run in source order reports:
    its units are those of the statements taken in source order, their
    symbols are names of the parser's declarations in the order of the
    declarations, and the generated text is the unit texts in that
    order. *)
Theorem source_order_preserved prefix known text order :
  Reordering (source_order (parse_header text)) order ->
  StronglySorted pos_before (map fst (declarations (parse_header text))) /\
  run_in_order prefix known order = generate prefix known text /\
  units (run_in_order prefix known order) =
    omap bound_unit (outcomes prefix (MkContext known ∅) (parse_header text)) /\
  map unit_symbol (units (run_in_order prefix known order)) `sublist_of`
    map (fun d => decl_name (snd d)) (declarations (parse_header text)) /\
  generated (run_in_order prefix known order) =
    String.concat "" (map unit_text (units (run_in_order prefix known order))).
Proof.
  intros Hr. split; [apply declarations_ordered |].
  rewrite (run_in_order_reordering prefix known _ _ Hr).
  split; [reflexivity |].
  rewrite run_statements_spec, report_units, report_generated.
  split; [reflexivity |]. split; [apply units_follow_declarations | reflexivity].
Qed.

Lemma source_order_preserved_witness :
  map unit_symbol (units (run_in_order "lean_mixed_api" ∅ mixed_api_reordered)) =
    ["db_conn"; "db_open"; "db_close"; "db_error"; "db_execute"].
Proof.
  pose proof (source_order_preserved "lean_mixed_api" ∅ mixed_api_h mixed_api_reordered
                mixed_api_reordering) as (_ & H & _).
  rewrite H. vm_compute. reflexivity.
Defined.

(** *** The scenarios, run *)

(** On simple_math.h the generator writes the adapter of c/ffi.c, to the
    character. *)
Example generate_simple_math :
  generated (generate "lean_simple_math" ∅ simple_math_h) = ffi_c_adapter /\
  diagnostics (generate "lean_simple_math" ∅ simple_math_h) = [] /\
  exit_status (generate "lean_simple_math" ∅ simple_math_h) = Success.
Proof. vm_compute. repeat split. Qed.

(** On mixed_api.h it registers [db_conn] and writes four adapters that
    hand the handle on as it is. *)
Example generate_mixed_api :
  map unit_text (units (generate "lean_mixed_api" ∅ mixed_api_h)) =
    [""%string;
     "db_conn *lean_mixed_api_db_open(const char *path) {
    return db_open(path);
}
"%string;
     "uint32_t lean_mixed_api_db_close(db_conn *conn) {
    return (uint32_t)db_close(conn);
}
"%string;
     "const char *lean_mixed_api_db_error(db_conn *conn) {
    return db_error(conn);
}
"%string;
     "uint32_t lean_mixed_api_db_execute(db_conn *conn, const char *sql) {
    return (uint32_t)db_execute(conn, sql);
}
"%string] /\
  elements (registrations (generate "lean_mixed_api" ∅ mixed_api_h)) = ["db_conn"%string] /\
  exit_status (generate "lean_mixed_api" ∅ mixed_api_h) = Success.
Proof. vm_compute. repeat split. Qed.

(** A handle used before its registration is an unknown type, for that
    declaration only. *)
Example generate_unregistered_handle :
  map diag_error
    (diagnostics (generate "lean" ∅
       "db_conn *db_open(const char *path);
typedef struct db_conn db_conn;
int db_close(db_conn *conn);")) = [UnknownTypeError] /\
  map unit_symbol
    (units (generate "lean" ∅
       "db_conn *db_open(const char *path);
typedef struct db_conn db_conn;
int db_close(db_conn *conn);")) = ["db_conn"%string; "db_close"%string].
Proof. vm_compute. repeat split. Qed.
End BindgenFacts.

(** ** The adapter of c/ffi.c over the whole range of [int] *)
Module AdapterRange.
Import Cint CintFacts FFI.
Local Open Scope Z_scope.

(** X1.  Signed values survive the unsigned interface.  For ints [x], [y]
    handed to the adapter as their unsigned casts, the adapter calls [add]
    on exactly [x] and [y], once; when [add] returns an int, casting the
    adapter's result back to [int] gives that int, negative or not, and the
    library is left in the state that call leaves. *)
Theorem lean_simple_math_add_signed_roundtrip
    (world : Type) (add : Z -> Z -> world -> Z * world) (x y : Z) (s : lib_state world) :
  is_int x -> is_int y -> is_int (add x y (lib_world s)).1 ->
  int_of_uint32 (lean_simple_math_add add (uint32_of_int x) (uint32_of_int y) s).1 =
    (add x y (lib_world s)).1 /\
  lib_world (lean_simple_math_add add (uint32_of_int x) (uint32_of_int y) s).2 =
    (add x y (lib_world s)).2 /\
  lib_calls (lean_simple_math_add add (uint32_of_int x) (uint32_of_int y) s).2 =
    lib_calls s ++ [Call_add x y].
Proof.
  intros Hx Hy Hr.
  unfold lean_simple_math_add, lib_bind, call_add, lib_ret.
  rewrite !int_of_uint32_of_int by assumption.
  destruct (add x y (lib_world s)) as [r w]. simpl in *.
  split; [apply int_of_uint32_of_int; exact Hr | split; reflexivity].
Qed.

Lemma lean_simple_math_add_signed_roundtrip_witness :
  int_of_uint32 (lean_simple_math_add plain_add (uint32_of_int (-5)) (uint32_of_int 3)
                   (LibState tt [])).1 = -2.
Proof.
  destruct (lean_simple_math_add_signed_roundtrip unit plain_add (-5) 3 (LibState tt []))
    as [H _].
  - unfold is_int, INT_MIN, INT_MAX. lia.
  - unfold is_int, INT_MIN, INT_MAX. lia.
  - unfold is_int, INT_MIN, INT_MAX. simpl. lia.
  - exact H.
Defined.

(** X2.  Where the round trip of numbers ends.  When [add] returns an int
    [r], the number the adapter returns is [r] if and only if [r] is not
    negative; a negative [r] comes back as [r + 2^32], above every int. *)
Theorem lean_simple_math_add_negative_result
    (world : Type) (add : Z -> Z -> world -> Z * world) (a b : Z) (s : lib_state world) :
  is_int (add (int_of_uint32 a) (int_of_uint32 b) (lib_world s)).1 ->
  ((lean_simple_math_add add a b s).1 =
     (add (int_of_uint32 a) (int_of_uint32 b) (lib_world s)).1 <->
   0 <= (add (int_of_uint32 a) (int_of_uint32 b) (lib_world s)).1) /\
  ((add (int_of_uint32 a) (int_of_uint32 b) (lib_world s)).1 < 0 ->
   (lean_simple_math_add add a b s).1 =
     (add (int_of_uint32 a) (int_of_uint32 b) (lib_world s)).1 + 2 ^ 32 /\
   INT_MAX < (lean_simple_math_add add a b s).1).
Proof.
  unfold lean_simple_math_add, lib_bind, call_add, lib_ret.
  destruct (add (int_of_uint32 a) (int_of_uint32 b) (lib_world s)) as [r w]. simpl.
  unfold is_int, INT_MIN, INT_MAX, uint32_of_int. intros Hr.
  assert (Hneg : r < 0 -> r mod 2 ^ 32 = r + 2 ^ 32).
  { intros Hlt. symmetry. apply Z.mod_unique with (q := -1); lia. }
  split; [split |].
  - intros E. pose proof (Z.mod_pos_bound r (2 ^ 32)). lia.
  - intros Hpos. apply Z.mod_small. lia.
  - intros Hlt. rewrite (Hneg Hlt). lia.
Qed.

Lemma lean_simple_math_add_negative_result_witness :
  (lean_simple_math_add plain_add 0 4294967295 (LibState tt [])).1 = 4294967295.
Proof.
  destruct (lean_simple_math_add_negative_result unit plain_add 0 4294967295 (LibState tt []))
    as [_ H].
  - change (is_int (-1)). unfold is_int, INT_MIN, INT_MAX. lia.
  - destruct H as [H _]; [change (-1 < 0); lia | exact H].
Defined.
End AdapterRange.

(** ** The life of a handle *)
Module HandleLifecycle.
Import HandleLib HandleLibFacts.
Local Open Scope c_scope.

(** *** What the two functions do to memory *)

Lemma malloc_returns o m :
  exists p m', malloc o m = Ret p m' /\
    alloc_plan m' = tail (alloc_plan m) /\
    (p = NULL /\ heap m' = heap m \/
     p = Ptr (fresh (dom (heap m))) 0 /\
     heap m' = <[fresh (dom (heap m)) := Live o]> (heap m)).
Proof.
  unfold malloc. destruct (alloc_plan m) as [| [] plan]; simpl;
    eexists _, _; (split; [reflexivity |]); (split; [reflexivity |]);
    try (right; split; reflexivity).
  left. split; reflexivity.
Qed.

Lemma cstring_at_new_struct m b off n plan :
  cstring_at m (Ptr b off) = None ->
  cstring_at (Memory (<[fresh (dom (heap m)) := Live (HandleStruct n)]> (heap m)) plan)
             (Ptr b off) = None.
Proof.
  simpl. intros H. destruct (decide (b = fresh (dom (heap m)))) as [-> | Hne].
  - rewrite lookup_insert_eq. reflexivity.
  - rewrite lookup_insert_ne by congruence. exact H.
Qed.

(** [handle_create], inverted: the struct is a new block, the name is NULL
    or a new block holding the string and its terminator, nothing else
    changes, and two answers of the allocator are used up. *)
Lemma handle_create_inv m name h m1 :
  handle_create name m = Ret h m1 ->
  exists hb s n,
    h = Ptr hb 0 /\ cstring_at m name = Some s /\ heap m !! hb = None /\
    alloc_plan m1 = tail (tail (alloc_plan m)) /\
    heap m1 = <[hb := Live (HandleStruct (Some n))]>
                (match n with
                 | NULL => heap m
                 | Ptr nb _ => <[nb := Live (CharArray (s ++ [x00]))]> (heap m)
                 end) /\
    (n = NULL \/ exists nb, n = Ptr nb 0 /\ nb <> hb /\ heap m !! nb = None).
Proof.
  intros Hc.
  destruct (cstring_at m name) as [s |] eqn:Hs.
  2:{ exfalso. revert Hc. unfold handle_create, bind.
      destruct (malloc_returns (HandleStruct None) m) as (p & m' & -> & _ & Hm).
      unfold strdup, bind, read_cstring. destruct name as [| b off]; [discriminate |].
      assert (Hnone : cstring_at m' (Ptr b off) = None).
      { destruct Hm as [[_ Hh] | [_ Hh]]; simpl; rewrite Hh; [exact Hs |].
        apply (cstring_at_new_struct m b off None (alloc_plan m')), Hs. }
      rewrite Hnone. discriminate. }
  destruct (allocations_succeed_dec 1 m) as [Hg | Hr].
  2:{ rewrite (handle_create_refused m name s Hs Hr) in Hc. discriminate. }
  destruct (handle_create_granted m name s Hs Hg) as (n & m2 & Hm & _ & Hc').
  rewrite Hc' in Hc. injection Hc as <- <-.
  set (hb := fresh (dom (heap m))) in *.
  assert (Hhb : heap m !! hb = None) by apply fresh_block_unused.
  exists hb, s, n. split; [reflexivity |]. split; [reflexivity |]. split; [exact Hhb |].
  destruct (malloc_returns (CharArray (s ++ [x00]))
              (Memory (<[hb := Live (HandleStruct None)]> (heap m)) (tail (alloc_plan m))))
    as (p & m' & Hm' & Hplan & Hcases).
  rewrite Hm in Hm'. injection Hm' as <- <-. simpl in *.
  split; [exact Hplan |].
  destruct Hcases as [[-> Hh] | [-> Hh]]; rewrite Hh.
  - split; [apply insert_insert_eq | left; reflexivity].
  - set (nb := fresh (dom (<[hb := Live (HandleStruct None)]> (heap m)))) in *.
    assert (Hnb : <[hb := Live (HandleStruct None)]> (heap m) !! nb = None)
      by apply fresh_block_unused.
    assert (Hne : nb <> hb).
    { intros E. rewrite E, lookup_insert_eq in Hnb. discriminate. }
    rewrite lookup_insert_ne in Hnb by congruence.
    split.
    + rewrite (insert_insert_ne _ nb hb) by exact Hne. apply insert_insert_eq.
    + right. exists nb. repeat split; assumption.
Qed.

(** [handle_close], inverted: it returns 0, both blocks of the handle are
    freed, nothing else changes. *)
Lemma handle_close_inv m h r m' :
  handle_close h m = Ret r m' ->
  exists b n,
    h = Ptr b 0 /\ heap m !! b = Some (Live (HandleStruct (Some n))) /\ r = 0%Z /\
    m' = Memory (<[b := Freed]>
                   (match n with
                    | NULL => heap m
                    | Ptr nb _ => <[nb := Freed]> (heap m)
                    end))
                (alloc_plan m) /\
    (n = NULL \/ exists nb o, n = Ptr nb 0 /\ nb <> b /\ heap m !! nb = Some (Live o)).
Proof.
  unfold handle_close, bind, get_name, ret.
  destruct h as [| b off]; [discriminate |].
  destruct (heap m !! b) as [[[bs | [n |]] |] |] eqn:Hb; try discriminate;
    destruct off; try discriminate.
  destruct n as [| nb noff]; simpl.
  - rewrite Hb. intros [= <- <-]. exists b, NULL.
    split; [reflexivity |]. split; [exact Hb |]. split; [reflexivity |].
    split; [reflexivity | left; reflexivity].
  - destruct (heap m !! nb) as [[o |] |] eqn:Hnb; try discriminate.
    destruct noff; [| discriminate]. simpl.
    destruct (decide (nb = b)) as [-> | Hne].
    + rewrite lookup_insert_eq. discriminate.
    + rewrite lookup_insert_ne by exact Hne. rewrite Hb. intros [= <- <-].
      exists b, (Ptr nb 0).
      split; [reflexivity |]. split; [exact Hb |]. split; [reflexivity |].
      split; [reflexivity |]. right. exists nb, o.
      split; [reflexivity |]. split; [exact Hne | exact Hnb].
Qed.

Lemma handle_create_lookups m name h m1 :
  handle_create name m = Ret h m1 ->
  exists hb n,
    h = Ptr hb 0 /\ heap m !! hb = None /\
    heap m1 !! hb = Some (Live (HandleStruct (Some n))) /\
    (n = NULL \/
     exists nb bs, n = Ptr nb 0 /\ nb <> hb /\ heap m !! nb = None /\
       heap m1 !! nb = Some (Live (CharArray bs))) /\
    (forall b, b <> hb -> block_of n <> Some b -> heap m1 !! b = heap m !! b).
Proof.
  intros Hc. apply handle_create_inv in Hc as (hb & s & n & -> & _ & Hhb & _ & Hh & Hn).
  exists hb, n. split; [reflexivity |]. split; [exact Hhb |].
  split; [rewrite Hh; apply lookup_insert_eq |]. split.
  - destruct Hn as [-> | (nb & -> & Hne & Hnb)]; [left; reflexivity |].
    right. exists nb, (s ++ [x00]). split; [reflexivity |]. split; [exact Hne |].
    split; [exact Hnb |]. rewrite Hh, lookup_insert_ne by congruence. apply lookup_insert_eq.
  - intros b Hb Hbn. rewrite Hh, lookup_insert_ne by congruence.
    destruct n as [| nb off]; [reflexivity |].
    apply lookup_insert_ne. intros E. apply Hbn. simpl. congruence.
Qed.

Lemma handle_close_lookups m h r m' :
  handle_close h m = Ret r m' ->
  exists b n,
    h = Ptr b 0 /\ heap m !! b = Some (Live (HandleStruct (Some n))) /\
    heap m' !! b = Some Freed /\
    (forall nb, block_of n = Some nb -> heap m' !! nb = Some Freed) /\
    (forall b', b' <> b -> block_of n <> Some b' -> heap m' !! b' = heap m !! b').
Proof.
  intros Hc. apply handle_close_inv in Hc as (b & n & -> & Hb & _ & -> & Hn).
  exists b, n. split; [reflexivity |]. split; [exact Hb |]. simpl.
  split; [apply lookup_insert_eq |]. split.
  - intros nb Hnb. destruct n as [| nb' off]; [discriminate |]. injection Hnb as ->.
    destruct (decide (nb = b)) as [-> | Hne]; [apply lookup_insert_eq |].
    rewrite lookup_insert_ne by congruence. apply lookup_insert_eq.
  - intros b' Hb' Hbn. rewrite lookup_insert_ne by congruence.
    destruct n as [| nb off]; [reflexivity |].
    apply lookup_insert_ne. intros E. apply Hbn. simpl. congruence.
Qed.

Lemma tail_tail_drop {A} (l : list A) : tail (tail l) = drop 2 l.
Proof. destruct l as [| x [| y l]]; reflexivity. Qed.

(** *** Creation *)

(** X3.  What [handle_create] does to memory when it returns.  The name
    was a NUL-terminated string [s]; the handle is the start of a block
    that did not exist; the memory is the old one with that struct added
    and, unless strdup was refused (the name is then NULL), one more new
    block that holds [s] and its terminator and nothing of what followed in
    the caller's buffer; no existing block is changed, and two answers of
    the allocator are used up. *)
Theorem handle_create_effect m name h m1 :
  handle_create name m = Ret h m1 ->
  exists hb s,
    h = Ptr hb 0 /\ cstring_at m name = Some s /\ heap m !! hb = None /\
    alloc_plan m1 = drop 2 (alloc_plan m) /\
    (heap m1 = <[hb := Live (HandleStruct (Some NULL))]> (heap m) \/
     exists nb, nb <> hb /\ heap m !! nb = None /\
       heap m1 = <[hb := Live (HandleStruct (Some (Ptr nb 0)))]>
                   (<[nb := Live (CharArray (s ++ [x00]))]> (heap m))).
Proof.
  intros Hc. apply handle_create_inv in Hc as (hb & s & n & -> & Hs & Hhb & Hp & Hh & Hn).
  exists hb, s. split; [reflexivity |]. split; [exact Hs |]. split; [exact Hhb |].
  split; [rewrite Hp; apply tail_tail_drop |].
  destruct Hn as [-> | (nb & -> & Hne & Hnb)]; [left; exact Hh |].
  right. exists nb. split; [exact Hne |]. split; [exact Hnb | exact Hh].
Qed.

Lemma handle_create_effect_witness :
  exists h m1,
    handle_create (Ptr 1 1) (caller_memory [true; true; false]) = Ret h m1 /\
    exists hb s,
      h = Ptr hb 0 /\
      cstring_at (caller_memory [true; true; false]) (Ptr 1 1) = Some s /\
      heap (caller_memory [true; true; false]) !! hb = None /\
      alloc_plan m1 = drop 2 [true; true; false] /\
      (heap m1 = <[hb := Live (HandleStruct (Some NULL))]>
                   (heap (caller_memory [true; true; false])) \/
       exists nb, nb <> hb /\ heap (caller_memory [true; true; false]) !! nb = None /\
         heap m1 = <[hb := Live (HandleStruct (Some (Ptr nb 0)))]>
                     (<[nb := Live (CharArray (s ++ [x00]))]>
                        (heap (caller_memory [true; true; false])))).
Proof.
  eexists _, _. split; [vm_compute; reflexivity |].
  apply (handle_create_effect (caller_memory [true; true; false]) (Ptr 1 1)).
  vm_compute. reflexivity.
Defined.

(** X4.  A name that designates no string.  When [name] is NULL, dangling,
    past the end of its array or without a terminator before the end,
    [handle_create] faults in strdup, whatever the allocator answers: a
    null dereference for NULL, an invalid read otherwise. *)
Theorem handle_create_unreadable_name m name :
  cstring_at m name = None ->
  handle_create name m = Fault (unreadable name).
Proof.
  intros Hs. unfold handle_create, bind.
  destruct (malloc_returns (HandleStruct None) m) as (p & m' & -> & _ & Hm).
  unfold strdup, bind, read_cstring. destruct name as [| b off]; [reflexivity |].
  assert (Hnone : cstring_at m' (Ptr b off) = None).
  { destruct Hm as [[_ Hh] | [_ Hh]]; simpl; rewrite Hh; [exact Hs |].
    apply (cstring_at_new_struct m b off None (alloc_plan m')), Hs. }
  rewrite Hnone. reflexivity.
Qed.

Lemma handle_create_unreadable_name_witness :
  handle_create (Ptr 1 3) (caller_memory []) = Fault InvalidPointer /\
  handle_create (Ptr 7 0) (caller_memory [false]) = Fault InvalidPointer.
Proof.
  split.
  - apply (handle_create_unreadable_name (caller_memory []) (Ptr 1 3)). reflexivity.
  - apply (handle_create_unreadable_name (caller_memory [false]) (Ptr 7 0)). reflexivity.
Defined.

(** *** Closing *)

(** X5.  When [handle_close] is defined.  It returns exactly when its
    argument is the start of a live struct whose name has been written and
    is NULL or the start of another live block; on anything else (NULL, a
    pointer into a block, a freed handle, a name that was freed or that
    points into the struct itself) it faults. *)
Theorem handle_close_returns_iff m h :
  returns (handle_close h m) <-> closable m h.
Proof.
  split.
  - destruct (handle_close h m) as [r m' |] eqn:Hc; [| intros []]. intros _.
    apply handle_close_inv in Hc as (b & n & -> & Hb & _ & _ & Hn).
    exists b, n. split; [reflexivity |]. split; [exact Hb | exact Hn].
  - intros (b & n & -> & Hb & Hn).
    unfold handle_close, bind, get_name. rewrite Hb.
    destruct Hn as [-> | (nb & o & -> & Hne & Hnb)]; simpl.
    + rewrite Hb. exact I.
    + rewrite Hnb. simpl. rewrite lookup_insert_ne by exact Hne. rewrite Hb. exact I.
Qed.

(** X6.  What [handle_close] does to memory when it returns.  It returns
    0; the struct and the block of its name are freed; every other block is
    as it was; the allocator is not consulted. *)
Theorem handle_close_effect m h r m' :
  handle_close h m = Ret r m' ->
  r = 0%Z /\ alloc_plan m' = alloc_plan m /\
  exists b n,
    h = Ptr b 0 /\ heap m !! b = Some (Live (HandleStruct (Some n))) /\
    heap m' !! b = Some Freed /\
    (forall nb, block_of n = Some nb -> heap m' !! nb = Some Freed) /\
    (forall b', b' <> b -> block_of n <> Some b' -> heap m' !! b' = heap m !! b').
Proof.
  intros Hc. split; [eapply handle_close_value, Hc |]. split.
  - apply handle_close_inv in Hc as (b & n & _ & _ & _ & -> & _). reflexivity.
  - apply handle_close_lookups in Hc. exact Hc.
Qed.

Lemma handle_close_effect_witness :
  exists h m1 m2,
    handle_create (Ptr 1 0) (caller_memory []) = Ret h m1 /\
    handle_close h m1 = Ret 0%Z m2 /\
    alloc_plan m2 = alloc_plan m1 /\
    heap m2 !! 1%positive = heap m1 !! 1%positive.
Proof.
  eexists _, _, _. split; [vm_compute; reflexivity |].
  split; [vm_compute; reflexivity |].
  match goal with
  | |- alloc_plan ?m2 = alloc_plan ?m1 /\ _ =>
      destruct (handle_close_effect m1 (Ptr 2 0) 0%Z m2) as (_ & Hp & b & n & Hh & Hb & _ & _ & Hf)
  end.
  - vm_compute. reflexivity.
  - split; [exact Hp |]. injection Hh as <-.
    apply Hf; [discriminate |].
    vm_compute in Hb. injection Hb as <-. discriminate.
Defined.

(** X7.  Creating and closing leaves nothing behind.  Whatever
    [handle_create] returned, [handle_close] on it returns 0 and then
    every block that existed before the creation is as it was, and no block
    that did not exist is live: both allocations, or the one that
    succeeded, have been freed. *)
Theorem handle_create_close_no_leak m name h m1 :
  handle_create name m = Ret h m1 ->
  exists m2,
    handle_close h m1 = Ret 0%Z m2 /\
    (forall b c, heap m !! b = Some c -> heap m2 !! b = Some c) /\
    (forall b, heap m !! b = None -> heap m2 !! b = None \/ heap m2 !! b = Some Freed).
Proof.
  intros Hc.
  destruct (handle_close_valid m1 h (handle_create_valid _ _ _ _ Hc)) as [m2 Hclose].
  exists m2. split; [exact Hclose |].
  apply handle_create_lookups in Hc as (hb & n & -> & Hhb & Hs & Hn & Hframe).
  apply handle_close_lookups in Hclose as (b & n' & [= <-] & Hs' & Hfb & Hfn & Hframe').
  rewrite Hs in Hs'. injection Hs' as <-.
  assert (Hfresh : forall nb, block_of n = Some nb -> heap m !! nb = None).
  { intros nb Hnb. destruct Hn as [-> | (nb' & bs & -> & _ & Hnone & _)]; [discriminate |].
    injection Hnb as <-. exact Hnone. }
  assert (Hsame : forall b', b' <> hb -> block_of n <> Some b' -> heap m2 !! b' = heap m !! b').
  { intros b' H1 H2. rewrite Hframe' by assumption. apply Hframe; assumption. }
  split.
  - intros b c Hb. rewrite Hsame; [exact Hb | |].
    + intros ->. rewrite Hhb in Hb. discriminate.
    + intros Hbn. rewrite (Hfresh b Hbn) in Hb. discriminate.
  - intros b Hb. destruct (decide (b = hb)) as [-> | Hne]; [right; exact Hfb |].
    destruct (decide (block_of n = Some b)) as [Hbn | Hbn]; [right; apply Hfn, Hbn |].
    left. rewrite Hsame by assumption. exact Hb.
Qed.

Lemma handle_create_close_no_leak_witness :
  exists m2,
    handle_close (Ptr 2 0) (Memory (<[2%positive := Live (HandleStruct (Some NULL))]>
                                      (heap (caller_memory []))) []) = Ret 0%Z m2 /\
    heap m2 !! 1%positive = Some (Live (CharArray caller_buffer)).
Proof.
  destruct (handle_create_close_no_leak (caller_memory [true; false]) (Ptr 1 0) (Ptr 2 0)
              (Memory (<[2%positive := Live (HandleStruct (Some NULL))]>
                         (heap (caller_memory []))) []))
    as (m2 & Hc & Hkeep & _).
  - vm_compute. reflexivity.
  - exists m2. split; [exact Hc |]. apply Hkeep. reflexivity.
Defined.

(** X8.  After [handle_close].  Once [handle_close] has returned, the
    handle is dead: [handle_name] and a second [handle_close] on it fault,
    and the pointer that [handle_name] returned before designates no string
    any more. *)
Theorem handle_use_after_close m h r m' :
  handle_close h m = Ret r m' ->
  handle_name h m' = Fault InvalidPointer /\
  handle_close h m' = Fault InvalidPointer /\
  (forall p m0, handle_name h m = Ret p m0 ->
     cstring_at m' p = None /\ (p <> NULL -> read_cstring p m' = Fault InvalidPointer)).
Proof.
  intros Hc. apply handle_close_lookups in Hc as (b & n & -> & Hb & Hfb & Hfn & _).
  assert (Hname : handle_name (Ptr b 0) m' = Fault InvalidPointer).
  { unfold handle_name, get_name. rewrite Hfb. reflexivity. }
  split; [exact Hname |]. split.
  - unfold handle_close, bind. fold (handle_name (Ptr b 0)). rewrite Hname. reflexivity.
  - intros p m0. unfold handle_name, get_name. rewrite Hb. intros [= <- <-].
    assert (Hnone : cstring_at m' n = None).
    { destruct n as [| nb off]; [reflexivity |]. simpl. rewrite (Hfn nb eq_refl). reflexivity. }
    split; [exact Hnone |]. intros Hp. unfold read_cstring. rewrite Hnone.
    destruct n; [contradiction | reflexivity].
Qed.

Lemma handle_use_after_close_witness :
  exists h m1 m2,
    handle_create (Ptr 1 0) (caller_memory []) = Ret h m1 /\
    handle_close h m1 = Ret 0%Z m2 /\
    handle_name h m2 = Fault InvalidPointer /\
    handle_close h m2 = Fault InvalidPointer.
Proof.
  eexists _, _, _. split; [vm_compute; reflexivity |].
  split; [vm_compute; reflexivity |].
  match goal with
  | |- handle_name ?h ?m2 = _ /\ _ =>
      destruct (handle_use_after_close
                  (Memory (<[2%positive := Live (HandleStruct (Some (Ptr 3 0)))]>
                             (<[3%positive := Live (CharArray caller_buffer)]>
                                (heap (caller_memory [])))) [])
                  h 0%Z m2) as (H1 & H2 & _)
  end.
  - vm_compute. reflexivity.
  - split; [exact H1 | exact H2].
Defined.

(** *** Several handles *)

(** X9.  Handles do not share.  Of two handles created one after the
    other, closing the first leaves the second as it was: [handle_name]
    returns the same pointer, to the same string, and [handle_close] on it
    still returns 0. *)
Theorem handles_independent m name1 name2 h1 m1 h2 m2 r m3 :
  handle_create name1 m = Ret h1 m1 ->
  handle_create name2 m1 = Ret h2 m2 ->
  handle_close h1 m2 = Ret r m3 ->
  h1 <> h2 /\
  (forall p m0, handle_name h2 m2 = Ret p m0 ->
     handle_name h2 m3 = Ret p m3 /\ cstring_at m3 p = cstring_at m2 p) /\
  exists m4, handle_close h2 m3 = Ret 0%Z m4.
Proof.
  intros Hc1 Hc2 Hclose.
  pose proof (handle_create_valid _ _ _ _ Hc2) as Hvalid.
  apply handle_create_lookups in Hc1 as (b1 & n1 & -> & _ & Hs1 & Hn1 & _).
  apply handle_create_lookups in Hc2 as (b2 & n2 & -> & Hb2 & Hs2 & Hn2 & Hframe2).
  apply handle_close_lookups in Hclose as (b & n & [= <-] & Hs & _ & _ & Hframe3).
  assert (Hb12 : b2 <> b1) by (intros ->; rewrite Hb2 in Hs1; discriminate).
  assert (Hn1live : forall nb, block_of n1 = Some nb -> is_Some (heap m1 !! nb)).
  { intros nb Hnb. destruct Hn1 as [-> | (nb' & bs & -> & _ & _ & Hl)]; [discriminate |].
    injection Hnb as <-. eauto. }
  assert (Hn2new : forall nb, block_of n2 = Some nb -> heap m1 !! nb = None).
  { intros nb Hnb. destruct Hn2 as [-> | (nb' & bs & -> & _ & Hnone & _)]; [discriminate |].
    injection Hnb as <-. exact Hnone. }
  assert (Hsame1 : heap m2 !! b1 = heap m1 !! b1).
  { apply Hframe2; [congruence |]. intros Hbn. rewrite (Hn2new b1 Hbn) in Hs1. discriminate. }
  rewrite Hsame1, Hs1 in Hs. injection Hs as <-.
  assert (Hkeep : forall b', b' = b2 \/ block_of n2 = Some b' -> heap m3 !! b' = heap m2 !! b').
  { intros b' Hb'. apply Hframe3.
    - intros ->. destruct Hb' as [E | E]; [congruence |].
      rewrite (Hn2new b1 E) in Hs1. discriminate.
    - intros Hbn1. destruct (Hn1live b' Hbn1) as [c Hc].
      destruct Hb' as [-> | E]; [rewrite Hb2 in Hc | rewrite (Hn2new b' E) in Hc]; discriminate. }
  assert (Hs2' : heap m3 !! b2 = Some (Live (HandleStruct (Some n2)))).
  { rewrite Hkeep by (left; reflexivity). exact Hs2. }
  split; [congruence |]. split.
  - intros p m0. unfold handle_name, get_name. rewrite Hs2, Hs2'. intros [= <- <-].
    split; [reflexivity |]. destruct n2 as [| nb off]; [reflexivity |].
    simpl. rewrite Hkeep by (right; reflexivity). reflexivity.
  - apply handle_close_valid. exists b2, n2. split; [reflexivity |]. split; [exact Hs2' |].
    destruct Hn2 as [-> | (nb & bs & -> & _ & _ & Hl)]; [left; reflexivity |].
    right. exists nb, bs. split; [reflexivity |].
    rewrite Hkeep by (right; reflexivity). exact Hl.
Qed.

Lemma handles_independent_witness :
  exists h1 m1 h2 m2 m3,
    handle_create (Ptr 1 0) (caller_memory []) = Ret h1 m1 /\
    handle_create (Ptr 1 1) m1 = Ret h2 m2 /\
    handle_close h1 m2 = Ret 0%Z m3 /\
    h1 <> h2 /\
    exists m4, handle_close h2 m3 = Ret 0%Z m4.
Proof.
  eexists _, _, _, _, _. split; [vm_compute; reflexivity |].
  split; [vm_compute; reflexivity |]. split; [vm_compute; reflexivity |].
  match goal with
  | |- ?h1 <> ?h2 /\ (exists m4, handle_close _ ?m3 = _) =>
      destruct (handles_independent (caller_memory []) (Ptr 1 0) (Ptr 1 1)
                  h1
                  (Memory (<[2%positive := Live (HandleStruct (Some (Ptr 3 0)))]>
                             (<[3%positive := Live (CharArray caller_buffer)]>
                                (heap (caller_memory [])))) [])
                  h2
                  (Memory (<[4%positive := Live (HandleStruct (Some (Ptr 5 0)))]>
                             (<[5%positive := Live (CharArray [x62; x00])]>
                                (<[2%positive := Live (HandleStruct (Some (Ptr 3 0)))]>
                                   (<[3%positive := Live (CharArray caller_buffer)]>
                                      (heap (caller_memory [])))))) [])
                  0%Z m3) as (Hne & _ & Hclose)
  end.
  - vm_compute. reflexivity.
  - vm_compute. reflexivity.
  - vm_compute. reflexivity.
  - split; [exact Hne | exact Hclose].
Defined.
End HandleLifecycle.
